(** * SIDLE: a shallow embedding of [src/main/main.cc]

    The program reads a JSON scene description and, for every image and every
    requested resolution, paints rectangles onto an RGBA byte buffer and hands
    the buffer to an external TGA encoder.

    The embedding keeps the program's own data, for an LP64 platform:
    [int] is a 32-bit signed integer, [size_t] a 64-bit unsigned one,
    [double] an IEEE-754 binary64 number ([SpecFloat]), [uint8_t] a byte,
    the pixel buffer a flat list of bytes.  C++ exceptions and undefined
    behaviour are explicit outcomes; the file system and the encoder are
    oracles, and what the program does to them is recorded in a trace. *)

From Stdlib Require Import ZArith String Ascii Bool Lia DecimalString.
From Stdlib Require Import Floats.SpecFloat.
From Stdlib Require DecimalPos DecimalZ.
From stdpp Require Import base tactics option list.

Local Open Scope string_scope.
Local Open Scope list_scope.
Local Open Scope Z_scope.

(** ** Outcomes of a C++ computation *)

(** The exceptions the program can meet.  [json_parse_error],
    [json_type_error] and [json_out_of_range] derive from [json::exception];
    [runtime_error] also stands for [filesystem_error] and
    [ios_base::failure], which derive from it; [bad_alloc] derives from
    neither. *)
Inductive exn :=
| json_parse_error
| json_type_error
| json_out_of_range
| runtime_error (what : string)
| bad_alloc.

(** A computation returns a value, throws, or has undefined behaviour
    (signed overflow, an out-of-range floating-point conversion, a write
    outside the allocated buffer, [front()] of an empty string). *)
Inductive outcome (A : Type) :=
| Ok (a : A)
| Throw (e : exn)
| Undefined.
Arguments Ok {A} a.
Arguments Throw {A} e.
Arguments Undefined {A}.

#[global] Instance outcome_ret : MRet outcome := fun _ a => Ok a.
#[global] Instance outcome_bind : MBind outcome := fun _ _ f m =>
  match m with
  | Ok a => f a
  | Throw e => Throw e
  | Undefined => Undefined
  end.

(** ** Machine integers *)

Definition INT_MIN : Z := - 2 ^ 31.
Definition INT_MAX : Z := 2 ^ 31 - 1.
Definition SIZE_MAX : Z := 2 ^ 64 - 1.

Definition in_int (z : Z) : bool := (INT_MIN <=? z) && (z <=? INT_MAX).
Definition in_size_t (z : Z) : bool := (0 <=? z) && (z <=? SIZE_MAX).

(** Conversion to [size_t], and the result of [size_t] arithmetic: modulo
    2^64. *)
Definition to_size_t (z : Z) : Z := z mod 2 ^ 64.

(** Narrowing of a 64-bit JSON integer to [int]: modulo 2^32, signed. *)
Definition to_int (z : Z) : Z := (z + 2 ^ 31) mod 2 ^ 32 - 2 ^ 31.

Definition to_uint8_t (z : Z) : Z := z mod 256.

(** [int * int]: overflow is undefined. *)
Definition int_mul (a b : Z) : outcome Z :=
  if in_int (a * b) then Ok (a * b) else Undefined.

(** ** Doubles *)

Definition double := spec_float.

Definition dmul : double -> double -> double := SFmul 53 1024.
Definition dadd : double -> double -> double := SFadd 53 1024.

(** Integer to double conversion (round to nearest, ties to even); exact for
    every [int]. *)
Definition double_of_Z (z : Z) : double := binary_normalize 53 1024 z 0 false.

(** [round] of <cmath>: nearest integer, halfway cases away from zero. *)
Definition c_round (d : double) : double :=
  match d with
  | S754_finite s m e =>
      if 0 <=? e then d
      else binary_normalize 53 1024
             (cond_Zopp s ((2 * Zpos m + 2 ^ (- e)) / 2 ^ (- e + 1))) 0 s
  | _ => d
  end.

(** The integer a double truncates to, when it is finite. *)
Definition trunc (d : double) : option Z :=
  match d with
  | S754_zero _ => Some 0
  | S754_finite s m e =>
      Some (cond_Zopp s (if 0 <=? e then Zpos m * 2 ^ e
                         else Zpos m / 2 ^ (- e)))
  | _ => None
  end.

(** Floating-integral conversions: undefined when the truncated value is
    not representable in the destination type. *)
Definition double_to_int (d : double) : outcome Z :=
  match trunc d with
  | Some z => if in_int z then Ok z else Undefined
  | None => Undefined
  end.

Definition double_to_size_t (d : double) : outcome Z :=
  match trunc d with
  | Some z => if in_size_t z then Ok z else Undefined
  | None => Undefined
  end.

(** ** Colours *)

(** [using colour = array<uint8_t, 4>] *)
Record colour := RGBA { red : Z; green : Z; blue : Z; alpha : Z }.

Definition colour_bytes (c : colour) : list Z :=
  [red c; green c; blue c; alpha c].

Definition char_code (c : ascii) : Z := Z.of_nat (nat_of_ascii c).

Definition parseHexit (c : ascii) : Z :=
  let n := char_code c in
  if (char_code "0" <=? n) && (n <=? char_code "9") then
    to_uint8_t (n - char_code "0")
  else if (char_code "a" <=? n) && (n <=? char_code "f") then
    to_uint8_t (n - char_code "a" + 10)
  else
    to_uint8_t (n - char_code "A" + 10).

(** [s.find_first_not_of(chars)]; [None] is [string::npos]. *)
Fixpoint string_mem (c : ascii) (chars : string) : bool :=
  match chars with
  | EmptyString => false
  | String c' rest => Ascii.eqb c c' || string_mem c rest
  end.

Fixpoint find_first_not_of (chars : string) (s : string) : option nat :=
  match s with
  | EmptyString => None
  | String c rest =>
      if string_mem c chars then S <$> find_first_not_of chars rest
      else Some O
  end.

(** [s[i]] for [i < s.size()] *)
Definition char_at (s : string) (i : nat) : ascii :=
  match String.get i s with
  | Some c => c
  | None => zero
  end.

Definition size (s : string) : Z := Z.of_nat (String.length s).

(** Lines 59-93: the checks and the four formats, once a leading [#] is
    gone. *)
Definition parse_digits (s : string) : outcome colour :=
  match find_first_not_of "0123456789abcdefABCDEF" s with
  | Some _ => Throw (runtime_error "invalid colour")
  | None =>
      let h i := parseHexit (char_at s i) in
      if size s =? 3 then
        Ok (RGBA (to_uint8_t (h 0%nat * 17)) (to_uint8_t (h 1%nat * 17))
                 (to_uint8_t (h 2%nat * 17)) 255)
      else if size s =? 4 then
        Ok (RGBA (to_uint8_t (h 0%nat * 17)) (to_uint8_t (h 1%nat * 17))
                 (to_uint8_t (h 2%nat * 17)) (to_uint8_t (h 3%nat * 17)))
      else if size s =? 6 then
        Ok (RGBA (to_uint8_t (h 0%nat * 16 + h 1%nat))
                 (to_uint8_t (h 2%nat * 16 + h 3%nat))
                 (to_uint8_t (h 4%nat * 16 + h 5%nat)) 255)
      else if size s =? 8 then
        Ok (RGBA (to_uint8_t (h 0%nat * 16 + h 1%nat))
                 (to_uint8_t (h 2%nat * 16 + h 3%nat))
                 (to_uint8_t (h 4%nat * 16 + h 5%nat))
                 (to_uint8_t (h 6%nat * 16 + h 7%nat)))
      else Throw (runtime_error "invalid colour")
  end.

(** Lines 54-57: [s.front()] is undefined on the empty string;
    [s.substr(1)] drops the leading [#]. *)
Definition parseColour (s : string) : outcome colour :=
  match s with
  | EmptyString => Undefined
  | String front rest =>
      parse_digits (if Ascii.eqb front "#" then rest else s)
  end.

(** ** JSON values (nlohmann::json)

    Integers ([number_integer], [number_unsigned]) and floating-point numbers
    are distinct kinds; an object lists its members in key order. *)
#[warnings="-register-all"] Inductive json :=
| JNull
| JBool (b : bool)
| JInt (z : Z)
| JFloat (d : double)
| JString (s : string)
| JArray (l : list json)
| JObject (members : list (string * json)).

Fixpoint find_member (key : string) (members : list (string * json))
  : option json :=
  match members with
  | [] => None
  | (k, v) :: rest => if String.eqb k key then Some v else find_member key rest
  end.

(** [j.at(key)] *)
Definition at_key (j : json) (key : string) : outcome json :=
  match j with
  | JObject members =>
      match find_member key members with
      | Some v => Ok v
      | None => Throw json_out_of_range
      end
  | _ => Throw json_type_error
  end.

(** [j.at(idx)] *)
Definition at_index (j : json) (idx : nat) : outcome json :=
  match j with
  | JArray l =>
      match l !! idx with
      | Some v => Ok v
      | None => Throw json_out_of_range
      end
  | _ => Throw json_type_error
  end.

(** The values [j.items()] iterates over. *)
Definition items (j : json) : list json :=
  match j with
  | JNull => []
  | JArray l => l
  | JObject members => snd <$> members
  | _ => [j]
  end.

Definition get_string (j : json) : outcome string :=
  match j with
  | JString s => Ok s
  | _ => Throw json_type_error
  end.

Definition get_double (j : json) : outcome double :=
  match j with
  | JInt z => Ok (double_of_Z z)
  | JFloat d => Ok d
  | _ => Throw json_type_error
  end.

Definition get_int (j : json) : outcome Z :=
  match j with
  | JInt z => Ok (to_int z)
  | JFloat d => double_to_int d
  | JBool b => Ok (if b then 1 else 0)
  | _ => Throw json_type_error
  end.

(** ** The pixel buffer *)

(** [make_unique<uint8_t[]>(n)], [n] a [size_t]: a zeroed array.  A request
    that came from a negative [int] is at least 2^64 - 2^31 bytes and
    cannot be granted; every smaller request is taken to succeed. *)
Definition make_unique (n : Z) : outcome (list Z) :=
  if n <=? INT_MAX then Ok (replicate (Z.to_nat n) 0) else Throw bad_alloc.

(** [copy(c.cbegin(), c.cend(), output.get() + offset)] *)
Definition copy (c : colour) (output : list Z) (offset : Z)
  : outcome (list Z) :=
  if offset + 4 <=? Z.of_nat (length output)
  then Ok (list_inserts (Z.to_nat offset) (colour_bytes c) output)
  else Undefined.

(** [for (size_t i = lo; i < hi; ++i) body] *)
Fixpoint for_range {St} (n : nat) (i : Z) (body : Z -> St -> outcome St)
  (s : St) : outcome St :=
  match n with
  | O => Ok s
  | S n => body i s ≫= for_range n (i + 1) body
  end.

Definition for_loop {St} (lo hi : Z) (body : Z -> St -> outcome St) (s : St)
  : outcome St :=
  for_range (Z.to_nat (hi - lo)) lo body s.
Arguments for_loop : simpl never.

(** [for (auto const &[_, x] : j.items()) body] *)
Fixpoint for_each {A St} (l : list A) (body : A -> St -> outcome St) (s : St)
  : outcome St :=
  match l with
  | [] => Ok s
  | x :: rest => body x s ≫= for_each rest body
  end.

(** ** Rasterizing one image at one resolution (main.cc, lines 135-175) *)

Record Resolution := { res_width : Z; res_height : Z }.

(** [round(j.at(key).get<double>() * n)] converted to [int] *)
Definition scaled (j : json) (key : string) (n : Z) : outcome Z :=
  v ← at_key j key ≫= get_double;
  double_to_int (c_round (dmul v (double_of_Z n))).

Record canvas := Canvas { cv_width : Z; cv_height : Z; cv_output : list Z }.

(** Lines 135-147: the canvas size, the allocation and the background. *)
Definition new_canvas (image : json) (resolution : Resolution)
  : outcome canvas :=
  width ← scaled image "width" (res_width resolution);
  height ← scaled image "height" (res_height resolution);
  pixels ← int_mul width height;
  bytes ← int_mul pixels 4;
  output ← make_unique (to_size_t bytes);
  background ← at_key image "background" ≫= get_string;
  backgroundColour ← parseColour background;
  output ← for_loop 0 (to_size_t pixels)
             (fun idx out => copy backgroundColour out (to_size_t (idx * 4)))
             output;
  Ok (Canvas width height output).

Record bounds := Bounds { startX : Z; endX : Z; startY : Z; endY : Z }.

(** One axis of lines 155-165: [start] and [end] as [size_t]. *)
Definition axis (element : json) (pos len : string) (dim : Z)
  : outcome (Z * Z) :=
  p ← at_key element pos ≫= get_double;
  start ← double_to_size_t (c_round (dmul p (double_of_Z dim)));
  l ← at_key element len ≫= get_double;
  e ← double_to_int (dadd (double_of_Z start)
                          (c_round (dmul l (double_of_Z dim))));
  Ok (start, to_size_t (Z.min e dim)).

Definition rectangle_bounds (element : json) (width height : Z)
  : outcome bounds :=
  '(startX, endX) ← axis element "x" "width" width;
  '(startY, endY) ← axis element "y" "height" height;
  Ok (Bounds startX endX startY endY).

(** [(y * width + x) * 4] in [size_t] arithmetic *)
Definition pixel_offset (width x y : Z) : Z :=
  to_size_t (to_size_t (to_size_t (y * to_size_t width) + x) * 4).

(** Lines 166-171 *)
Definition paint (c : colour) (b : bounds) (width : Z) (output : list Z)
  : outcome (list Z) :=
  for_loop (startY b) (endY b)
    (fun y out =>
       for_loop (startX b) (endX b)
         (fun x out => copy c out (pixel_offset width x y)) out)
    output.

(** Lines 150-165 and 172-174: the element's type, colour and bounds. *)
Definition read_rectangle (width height : Z) (element : json)
  : outcome (colour * bounds) :=
  elementType ← at_key element "type" ≫= get_string;
  if String.eqb elementType "rectangle" then
    colour ← at_key element "colour" ≫= get_string;
    rectangleColour ← parseColour colour;
    b ← rectangle_bounds element width height;
    Ok (rectangleColour, b)
  else Throw (runtime_error "invalid type").

(** Lines 150-174: the body of the loop over the elements. *)
Definition paint_element (width height : Z) (element : json)
  (output : list Z) : outcome (list Z) :=
  '(rectangleColour, b) ← read_rectangle width height element;
  paint rectangleColour b width output.

(** Lines 135-175 *)
Definition render (image : json) (resolution : Resolution) : outcome canvas :=
  cv ← new_canvas image resolution;
  elements ← at_key image "elements";
  output ← for_each (items elements)
             (paint_element (cv_width cv) (cv_height cv)) (cv_output cv);
  Ok (Canvas (cv_width cv) (cv_height cv) output).

(** ** The outside world *)

(** Paths are kept as the expressions the program builds:
    [path(s).lexically_normal()] and [p / name]. The program only hands
    them on, to the file system and to the encoder. Where [p / name]
    leads is up to [operator/] and the name: an absolute [name] replaces
    [p], and a separator or [..] inside [name] leads elsewhere, so
    [path_append p name] need not lie in [p]. *)
Inductive path :=
| lexically_normal (s : string)
| path_append (p : path) (name : string).

(** What [create_directories(p)] followed by [status(p).type()] gives: a
    directory, something else, or a [filesystem_error] (a [runtime_error]). *)
Inductive dir_result :=
| dir_ok
| dir_not_directory
| dir_throws (what : string).

(** What is written to [cerr]. *)
Inductive message :=
| usage (argv0 : string)
| could_not_open (argv1 : string)
| could_not_parse (argv1 : string)
| invalid_description (e : exn)
| error (what : string).

Inductive event :=
| Ecerr (m : message)
| Ecreate_directories (p : path) (r : dir_result)
| Estbi_write_tga (filename : path) (w h comp : Z) (data : list Z) (ret : Z).

Inductive exit_status :=
| Exit (code : Z)
| Terminate           (* an exception no handler catches *)
| UndefinedBehaviour.

(** [to_string(int)] *)
Definition to_string (z : Z) : string := NilZero.string_of_int (Z.to_int z).

Definition resolution_folder (outputFolder : path) (resolution : Resolution)
  : path :=
  path_append outputFolder
    ("res" ++ to_string (res_width resolution) ++ "x" ++
     to_string (res_height resolution))%string.

(** A computation that also extends the trace of events. *)
Definition io (A : Type) : Type := list event -> outcome A * list event.

Fixpoint io_for_each {A} (l : list A) (body : A -> io unit) : io unit :=
  fun tr =>
    match l with
    | [] => (Ok tt, tr)
    | x :: rest =>
        match body x tr with
        | (Ok _, tr') => io_for_each rest body tr'
        | r => r
        end
    end.

(** Lines 109-122: the output folder, the resolutions, and the images the
    outer loop iterates over. *)
Definition read_resolution (resolution : json) (resolutions : list Resolution)
  : outcome (list Resolution) :=
  width ← at_index resolution 0 ≫= get_int;
  height ← at_index resolution 1 ≫= get_int;
  Ok (resolutions ++ [Build_Resolution width height]).

Definition scene (file : json)
  : outcome (path * list Resolution * list json) :=
  outputPath ← at_key file "outputPath" ≫= get_string;
  rs ← at_key file "resolutions";
  resolutions ← for_each (items rs) read_resolution [];
  images ← at_key file "images";
  Ok (lexically_normal outputPath, resolutions, items images).

Section Main.
(** The file system and the encoder answer as a function of what has
    happened so far. *)
Variable filesystem : list event -> path -> dir_result.
Variable stbi_write_tga : list event -> path -> Z -> Z -> Z -> list Z -> Z.

(** Lines 124-177: the body of the inner loop. *)
Definition process (outputFolder : path) (image : json)
  (resolution : Resolution) : io unit :=
  fun tr =>
    let resolutionFolder := resolution_folder outputFolder resolution in
    let r := filesystem tr resolutionFolder in
    let tr := tr ++ [Ecreate_directories resolutionFolder r] in
    match r with
    | dir_throws what => (Throw (runtime_error what), tr)
    | dir_not_directory =>
        (Throw (runtime_error "could not create output folder"), tr)
    | dir_ok =>
        match name ← at_key image "name" ≫= get_string;
              cv ← render image resolution;
              Ok (path_append resolutionFolder (name ++ ".tga")%string, cv)
        with
        | Ok (outputPath, cv) =>
            let ret := stbi_write_tga tr outputPath (cv_width cv)
                         (cv_height cv) 4 (cv_output cv) in
            (Ok tt,
             tr ++ [Estbi_write_tga outputPath (cv_width cv) (cv_height cv)
                      4 (cv_output cv) ret])
        | Throw e => (Throw e, tr)
        | Undefined => (Undefined, tr)
        end
    end.

(** Lines 122-179 *)
Definition process_image (outputFolder : path)
  (resolutions : list Resolution) (image : json) : io unit :=
  io_for_each resolutions (process outputFolder image).

(** Lines 109-179: the [try] block; [parsed] is what [json::parse(fin)]
    gives: the value, or the exception that leaves it ([parse_error] on a
    text that is not JSON, [out_of_range] on a number that overflows, a
    [runtime_error] when reading the stream fails, as on a directory). *)
Definition try_block (parsed : outcome json) : io unit :=
  fun tr =>
    match parsed with
    | Ok file =>
        match scene file with
        | Ok (outputFolder, resolutions, images) =>
            io_for_each images (process_image outputFolder resolutions) tr
        | Throw e => (Throw e, tr)
        | Undefined => (Undefined, tr)
        end
    | Throw e => (Throw e, tr)
    | Undefined => (Undefined, tr)
    end.

(** [main]: [argv] the arguments, [fin_good] whether the file opened.
    With no argument at all [argv[0]] is null and streaming it is
    undefined. *)
Definition main (argv : list string) (fin_good : bool)
  (parsed : outcome json) : exit_status * list event :=
  match argv with
  | [] => (UndefinedBehaviour, [])
  | [argv0; argv1] =>
      if negb fin_good then (Exit 1, [Ecerr (could_not_open argv1)])
      else
        match try_block parsed [] with
        | (Ok _, tr) => (Exit 0, tr)
        | (Throw json_parse_error, tr) =>
            (Exit 1, tr ++ [Ecerr (could_not_parse argv1)])
        | (Throw (json_type_error as e), tr)
        | (Throw (json_out_of_range as e), tr) =>
            (Exit 0, tr ++ [Ecerr (invalid_description e)])
        | (Throw (runtime_error what), tr) =>
            (Exit 0, tr ++ [Ecerr (error what)])
        | (Throw bad_alloc, tr) => (Terminate, tr)
        | (Undefined, tr) => (UndefinedBehaviour, tr)
        end
  | argv0 :: _ => (Exit 1, [Ecerr (usage argv0)])
  end.
End Main.

(** ** What the specification documents for the colour parser *)

(** The value of a hexit: its position among the sixteen digits, letters
    in either case. *)
Fixpoint position (c : ascii) (chars : string) : option Z :=
  match chars with
  | EmptyString => None
  | String c' rest =>
      if Ascii.eqb c c' then Some 0 else Z.succ <$> position c rest
  end.

Definition hexit_value (c : ascii) : option Z :=
  match position c "0123456789abcdef" with
  | Some v => Some v
  | None => Z.add 10 <$> position c "ABCDEF"
  end.

Fixpoint hexits (s : string) : option (list Z) :=
  match s with
  | EmptyString => Some []
  | String c rest => v ← hexit_value c; vs ← hexits rest; Some (v :: vs)
  end.

(** An optional leading [#] is dropped. *)
Definition strip_hash (text : string) : string :=
  match text with
  | String "#" rest => rest
  | _ => text
  end.

(** The documented channel values for 3, 4, 6 or 8 hexits; [None]
    ([InvalidColorFormat]) for any other length. *)
Definition colour_of_hexits (vs : list Z) : option colour :=
  match vs with
  | [r; g; b] => Some (RGBA (r * 17) (g * 17) (b * 17) 255)
  | [r; g; b; a] => Some (RGBA (r * 17) (g * 17) (b * 17) (a * 17))
  | [r1; r0; g1; g0; b1; b0] =>
      Some (RGBA (r1 * 16 + r0) (g1 * 16 + g0) (b1 * 16 + b0) 255)
  | [r1; r0; g1; g0; b1; b0; a1; a0] =>
      Some (RGBA (r1 * 16 + r0) (g1 * 16 + g0) (b1 * 16 + b0) (a1 * 16 + a0))
  | _ => None
  end.

Definition documented_colour (text : string) : option colour :=
  hexits (strip_hash text) ≫= colour_of_hexits.

Definition invalid_colour {A} : outcome A :=
  Throw (runtime_error "invalid colour").

(** The characters [parse_digits] accepts. *)
Definition hex_chars : string := "0123456789abcdefABCDEF".

(** ** Reading the buffer *)

(** The four bytes of the pixel with index [i] (row-major, RGBA). *)
Definition pixel_at (output : list Z) (i : Z) : list Z :=
  take 4 (drop (Z.to_nat (4 * i)) output).

(** The rectangle's loops write the pixel with index [i]. *)
Definition covers (b : bounds) (width i : Z) : Prop :=
  exists x y, startX b <= x < endX b /\ startY b <= y < endY b /\
              pixel_offset width x y = 4 * i.

(** The pixel (x, y) lies in the rectangle [startX, endX) x [startY, endY). *)
Definition in_rectangle (b : bounds) (x y : Z) : bool :=
  (startX b <=? x) && (x <? endX b) && (startY b <=? y) && (y <? endY b).

(** ** Scale factors and canvas sizes *)


(** Zero, a positive number or NaN. *)
Definition not_negative (d : double) : bool :=
  match d with
  | S754_finite true _ _ | S754_infinity true => false
  | _ => true
  end.

(** [round(scale * n)] as an integer, when it is finite. *)
Definition rounded (scale : double) (n : Z) : option Z :=
  trunc (c_round (dmul scale (double_of_Z n))).


(** ** Reading the trace *)

(** What a run does to the file system: the directories it ensures and the
    files it hands to the encoder, in order. *)
Inductive action :=
| Create (folder : path)
| Write (file : path).

Definition action_of (ev : event) : option action :=
  match ev with
  | Ecerr _ => None
  | Ecreate_directories p _ => Some (Create p)
  | Estbi_write_tga p _ _ _ _ _ => Some (Write p)
  end.

Definition actions (tr : list event) : list action := omap action_of tr.

Definition is_write (a : action) : bool :=
  match a with Write _ => true | Create _ => false end.

(** The files handed to the encoder. *)
Definition writes (tr : list event) : list action :=
  List.filter is_write (actions tr).

Definition image_name (image : json) : string :=
  match at_key image "name" ≫= get_string with
  | Ok name => name
  | _ => EmptyString
  end.

Definition output_path (outputFolder : path) (resolution : Resolution)
  (image : json) : path :=
  path_append (resolution_folder outputFolder resolution)
    (image_name image ++ ".tga")%string.

(** The pairs in the order the loops of lines 122-123 visit them: images
    outer, resolutions inner. *)
Definition pairs (images : list json) (resolutions : list Resolution)
  : list (json * Resolution) :=
  image ← images; resolution ← resolutions; [(image, resolution)].

(** A pair that is processed to the end: its directory is ensured, then its
    file is written. *)
Definition pair_actions (outputFolder : path) (p : json * Resolution)
  : list action :=
  [Create (resolution_folder outputFolder p.2);
   Write (output_path outputFolder p.2 p.1)].

(** Images outer, resolutions inner; the directory of a pair is ensured
    right before its file is written. *)
Definition image_outer_actions (outputFolder : path)
  (resolutions : list Resolution) (images : list json) : list action :=
  image ← images; resolution ← resolutions;
  [Create (resolution_folder outputFolder resolution);
   Write (output_path outputFolder resolution image)].

Definition process_pair
  (filesystem : list event -> path -> dir_result)
  (stbi_write_tga : list event -> path -> Z -> Z -> Z -> list Z -> Z)
  (outputFolder : path) (p : json * Resolution) : io unit :=
  process filesystem stbi_write_tga outputFolder p.1 p.2.

(** The trace without what the encoder returned. *)
Definition erase_ret (ev : event) : event :=
  match ev with
  | Estbi_write_tga p w h comp data _ => Estbi_write_tga p w h comp data 0
  | _ => ev
  end.

Definition forget (tr : list event) : list event := erase_ret <$> tr.

(** Only [json::parse] throws [parse_error]. *)
Definition not_parse_error {A} (o : outcome A) : Prop :=
  o <> Throw json_parse_error.

(** ** Descriptions used as examples

    Objects list their members in key order, as nlohmann::json stores
    them. *)

Definition rectangle (x y w h : json) (colour : string) : json :=
  JObject [("colour", JString colour); ("height", h);
           ("type", JString "rectangle"); ("width", w); ("x", x); ("y", y)].

Definition image (name : string) (w h : json) (background : string)
  (elements : list json) : json :=
  JObject [("background", JString background); ("elements", JArray elements);
           ("height", h); ("name", JString name); ("width", w)].

Definition description (outputPath : string) (resolutions : list (Z * Z))
  (images : list json) : json :=
  JObject [("images", JArray images); ("outputPath", JString outputPath);
           ("resolutions",
            JArray ((fun r => JArray [JInt r.1; JInt r.2]) <$> resolutions))].

Definition always_directory : list event -> path -> dir_result :=
  fun _ _ => dir_ok.
Definition encoder_returns (ret : Z)
  : list event -> path -> Z -> Z -> Z -> list Z -> Z :=
  fun _ _ _ _ _ _ => ret.

Definition white : colour := RGBA 255 255 255 255.

Definition plain (name : string) : json :=
  image name (JInt 1) (JInt 1) "#000" [].
Definition black : colour := RGBA 0 0 0 255.

(** The double [m * 2^e]. *)
Definition dyadic (m e : Z) : double := binary_normalize 53 1024 m e false.

(** Scenario B: the centred square of half the canvas; scenario D: a
    rectangle that sticks out to the right and to the bottom. *)
Definition centred_square : json :=
  rectangle (JFloat (dyadic 1 (-2))) (JFloat (dyadic 1 (-2)))
    (JFloat (dyadic 1 (-1))) (JFloat (dyadic 1 (-1))) "#ffffff".
Definition sticking_out : json :=
  rectangle (JFloat (dyadic 3 (-2))) (JFloat (dyadic 3 (-2)))
    (JFloat (dyadic 1 (-1))) (JFloat (dyadic 1 (-1))) "#ffffff".

(** A rectangle of width -1 on a canvas of one pixel. *)
Definition negative_width : json :=
  rectangle (JInt 0) (JInt 0) (JInt (-1)) (JInt 1) "#fff".
Definition negative_width_scene : json :=
  description "out" [(1, 1)]
    [image "a" (JInt 1) (JInt 1) "#000" [negative_width]].

(** Three rectangles that each cover the single pixel of a 1 x 1 canvas. *)
Definition full (colour : string) : json :=
  rectangle (JInt 0) (JInt 0) (JInt 1) (JInt 1) colour.
Definition red_green_blue : list json :=
  [full "#f00"; full "#0f0"; full "#00f"].

Definition two_by_two : json :=
  description "out" [(1, 1); (2, 2)] [plain "a"; plain "b"].

(** A valid image followed by one whose background is not a colour. *)
Definition good_then_bad : json :=
  description "out" [(1, 1)]
    [plain "a"; image "b" (JInt 1) (JInt 1) "#00" []].

(** One description for each kind of fatal processing error. *)
Definition missing_output_path : json := JObject [].
Definition bad_background : json :=
  description "out" [(1, 1)] [image "a" (JInt 1) (JInt 1) "#00" []].
Definition ellipse : json :=
  JObject [("type", JString "ellipse")].
Definition with_ellipse : json :=
  description "out" [(1, 1)] [image "a" (JInt 1) (JInt 1) "#000" [ellipse]].
Definition never_directory : list event -> path -> dir_result :=
  fun _ _ => dir_not_directory.
Definition res1x1 : path := path_append (lexically_normal "out") "res1x1".

(** ** Claims the program does not meet, as they are stated *)

(** C2 as stated: of any two rectangles of the list that cover a pixel, the
    later one gives the pixel its final colour. *)
Definition later_of_two_wins (width height : Z) (elements : list json)
  (output : list Z) : Prop :=
  forall output' i (n m : nat) e1 c1 b1 e2 c2 b2,
    for_each elements (paint_element width height) output = Ok output' ->
    0 <= i -> (n < m)%nat ->
    elements !! n = Some e1 -> elements !! m = Some e2 ->
    read_rectangle width height e1 = Ok (c1, b1) ->
    read_rectangle width height e2 = Ok (c2, b2) ->
    covers b1 width i -> covers b2 width i ->
    pixel_at output' i = colour_bytes c2.


(** C5 as stated: resolutions outer, images inner, each directory created
    once per resolution before the files of that resolution. *)
Definition resolution_outer_actions (outputFolder : path)
  (resolutions : list Resolution) (images : list json) : list action :=
  resolution ← resolutions;
  Create (resolution_folder outputFolder resolution) ::
  (Write ∘ output_path outputFolder resolution <$> images).

Definition resolution_outer_order
  (filesystem : list event -> path -> dir_result)
  (stbi_write_tga : list event -> path -> Z -> Z -> Z -> list Z -> Z)
  (file : json) : Prop :=
  forall tr outputFolder resolutions images,
    try_block filesystem stbi_write_tga (Ok file) [] = (Ok tt, tr) ->
    scene file = Ok (outputFolder, resolutions, images) ->
    actions tr = resolution_outer_actions outputFolder resolutions images.

(** C7 as stated: a run that ends in a fatal error has handed no file to
    the encoder. *)
Definition no_partial_output
  (filesystem : list event -> path -> dir_result)
  (stbi_write_tga : list event -> path -> Z -> Z -> Z -> list Z -> Z)
  (file : json) : Prop :=
  forall e tr,
    try_block filesystem stbi_write_tga (Ok file) [] = (Throw e, tr) ->
    writes tr = [].

(** ** Further notions *)

(** Letters in lower case, as in the C locale. *)
Definition to_lower (c : ascii) : ascii :=
  let n := nat_of_ascii c in
  if (65 <=? n)%nat && (n <=? 90)%nat then ascii_of_nat (n + 32) else c.

Fixpoint lowercase (s : string) : string :=
  match s with
  | EmptyString => EmptyString
  | String c rest => String (to_lower c) (lowercase rest)
  end.

Definition is_byte (b : Z) : Prop := 0 <= b < 256.

(** What the encoder needs of a call: four channels and a buffer of
    [w * h * 4] bytes. *)
Definition well_formed_write (ev : event) : Prop :=
  match ev with
  | Estbi_write_tga _ w h comp data _ =>
      comp = 4 /\ Z.of_nat (length data) = w * h * 4 /\ Forall is_byte data
  | _ => True
  end.

(** Every path handed to the encoder is [folder / name] for the folder
    that the event right before it found to be a directory. *)
Definition written_into_verified_folder (tr : list event) : Prop :=
  forall before p w h comp data ret after,
    tr = before ++ Estbi_write_tga p w h comp data ret :: after ->
    exists earlier folder name,
      before = earlier ++ [Ecreate_directories folder dir_ok] /\
      p = path_append folder name.

(** The centred square at resolution 4 x 4: white on black. *)
Definition centred_square_image : json :=
  image "b" (JFloat (dyadic 1 0)) (JFloat (dyadic 1 0)) "#000000"
    [centred_square].
Definition centred_square_output : list Z :=
  let k := [0; 0; 0; 255] in
  let w := [255; 255; 255; 255] in
  mjoin [k; k; k; k;
         k; w; w; k;
         k; w; w; k;
         k; k; k; k].

(** A resolution entry [j] was read as [r]: [j.at(0)] and [j.at(1)] as
    [int]. *)
Definition read_as (j : json) (r : Resolution) : Prop :=
  at_index j 0 ≫= get_int = Ok (res_width r) /\
  at_index j 1 ≫= get_int = Ok (res_height r) /\
  in_int (res_width r) = true /\ in_int (res_height r) = true.

(** The name of the folder of a resolution, lines 125-126. *)
Definition folder_name (resolution : Resolution) : string :=
  ("res" ++ to_string (res_width resolution) ++ "x" ++
   to_string (res_height resolution))%string.

Definition backslash : ascii := ascii_of_nat 92.

(** A name that [operator/] appends as one component below the folder:
    not empty, not [.] or [..], and free of ['/'], of the backslash and
    of the colon of a drive. *)
Definition single_component (name : string) : Prop :=
  name <> EmptyString /\ name <> "." /\ name <> ".." /\
  string_mem "/" name = false /\ string_mem backslash name = false /\
  string_mem ":" name = false.

Definition is_digit (c : ascii) : Prop :=
  (48 <= nat_of_ascii c <= 57)%nat.

(** No event of the trace is a message on [cerr]. *)
Definition is_message (ev : event) : bool :=
  match ev with
  | Ecerr _ => true
  | _ => false
  end.

Definition silent (tr : list event) : Prop :=
  Forall (fun ev => is_message ev = false) tr.

(** * Properties *)

(** ** The arithmetic on small cases *)

(** [round] rounds halfway cases away from zero: 2.5, -2.5, 0.5, and the
    largest double below 0.5. *)
Example c_round_halfway :
  trunc (c_round (dyadic 5 (-1))) = Some 3 /\
  trunc (c_round (dyadic (-5) (-1))) = Some (-3) /\
  trunc (c_round (dyadic 1 (-1))) = Some 1 /\
  trunc (c_round (dyadic 9007199254740991 (-54))) = Some 0.
Proof. repeat split. Qed.

(** The double nearest to 0.1, times 100, rounds to 10. *)
Example rounded_tenth :
  rounded (S754_finite false 3602879701896397 (-55)) 100 = Some 10.
Proof. reflexivity. Qed.

(** A negative value converts to [int] but not to [size_t]. *)
Example conversions :
  double_to_int (double_of_Z (-1)) = Ok (-1) /\
  double_to_size_t (double_of_Z (-1)) = Undefined /\
  double_to_int (double_of_Z (2 ^ 31)) = Undefined /\
  to_size_t (-1) = 2 ^ 64 - 1.
Proof. repeat split. Qed.

(** Scenarios A and B at resolution 4 x 4: an all-black opaque canvas, and
    a white square of 2 x 2 pixels in its centre. *)
Example scenario_A :
  render (image "a" (JFloat (dyadic 1 0)) (JFloat (dyadic 1 0)) "#000000" [])
    (Build_Resolution 4 4)
  = Ok (Canvas 4 4 (mjoin (replicate 16 [0; 0; 0; 255]))).
Proof. reflexivity. Qed.

Example scenario_B :
  let k := [0; 0; 0; 255] in
  let w := [255; 255; 255; 255] in
  render (image "b" (JFloat (dyadic 1 0)) (JFloat (dyadic 1 0)) "#000000"
            [centred_square])
    (Build_Resolution 4 4)
  = Ok (Canvas 4 4 (mjoin [k; k; k; k;
                           k; w; w; k;
                           k; w; w; k;
                           k; k; k; k])).
Proof. reflexivity. Qed.

(** ** The colour parser *)

Lemma hexit_value_Some c v :
  hexit_value c = Some v ->
  string_mem c hex_chars = true /\ parseHexit c = v /\ 0 <= v <= 15.
Proof.
  destruct c as [[] [] [] [] [] [] [] []]; vm_compute; intros [= <-];
    intuition congruence.
Qed.

Lemma hexit_value_None c :
  hexit_value c = None -> string_mem c hex_chars = false.
Proof.
  destruct c as [[] [] [] [] [] [] [] []]; vm_compute; intros [=];
    reflexivity.
Qed.

Lemma find_first_not_of_cons chars c s :
  find_first_not_of chars (String c s) =
  if string_mem c chars then S <$> find_first_not_of chars s else Some O.
Proof. reflexivity. Qed.

Lemma find_first_not_of_hexits s :
  match hexits s with
  | Some vs =>
      find_first_not_of hex_chars s = None /\
      vs = parseHexit <$> list_ascii_of_string s /\
      Forall (fun v => 0 <= v <= 15) vs
  | None => exists i, find_first_not_of hex_chars s = Some i
  end.
Proof.
  induction s as [|c s IH].
  { repeat split; constructor. }
  rewrite find_first_not_of_cons. cbn [hexits].
  destruct (hexit_value c) as [v|] eqn:Hc.
  - apply hexit_value_Some in Hc as (-> & <- & Hv).
    destruct (hexits s) as [vs|]; cbn [mbind option_bind].
    + destruct IH as (-> & -> & Hvs). repeat split; auto.
    + destruct IH as [i ->]. cbn; eauto.
  - apply hexit_value_None in Hc as ->. cbn; eauto.
Qed.

Lemma to_uint8_t_small v : 0 <= v <= 255 -> to_uint8_t v = v.
Proof. intros. apply Z.mod_small. lia. Qed.

Lemma size_cons c s : size (String c s) = 1 + size s.
Proof. unfold size. cbn [String.length]. lia. Qed.

Lemma size_nonneg s : 0 <= size s.
Proof. unfold size. lia. Qed.

Ltac hexit_bounds :=
  repeat match goal with
    | H : Forall _ (_ :: _) |- _ => apply Forall_cons in H as [? H]
    end.

Lemma parse_digits_documented s :
  parse_digits s =
  match hexits s ≫= colour_of_hexits with
  | Some c => Ok c
  | None => invalid_colour
  end.
Proof.
  unfold parse_digits. fold hex_chars.
  pose proof (find_first_not_of_hexits s) as H.
  destruct (hexits s) as [vs|]; cbn [mbind option_bind].
  2:{ destruct H as [i ->]. reflexivity. }
  destruct H as (-> & -> & Hvs).
  destruct s as [|a1 [|a2 [|a3 [|a4 [|a5 [|a6 [|a7 [|a8 [|a9 s]]]]]]]]];
    cbn in Hvs; hexit_bounds;
    try (cbn; rewrite ?to_uint8_t_small by lia; reflexivity).
  pose proof (size_nonneg s).
  repeat rewrite size_cons.
  repeat match goal with
    | |- context [?a =? ?b] =>
        destruct (Z.eqb_spec a b) as [?|_]; [exfalso; lia|]
    end.
  reflexivity.
Qed.

Lemma strip_hash_cons front rest :
  strip_hash (String front rest) =
  if Ascii.eqb front "#" then rest else String front rest.
Proof.
  destruct (Ascii.eqb_spec front "#") as [->|Hne]; [reflexivity|].
  destruct front as [[] [] [] [] [] [] [] []]; try reflexivity.
  contradiction Hne; reflexivity.
Qed.

(** X1 -- Every non-empty text is parsed as documented: the channel values of
    the 3, 4, 6 and 8 hexit forms, with or without [#], and
    ["invalid colour"] for every other text. *)
Lemma parseColour_documented s :
  s <> EmptyString ->
  parseColour s =
  match documented_colour s with
  | Some c => Ok c
  | None => invalid_colour
  end.
Proof.
  destruct s as [|front rest]; [congruence|intros _].
  unfold parseColour, documented_colour.
  rewrite strip_hash_cons. apply parse_digits_documented.
Qed.

Lemma parseColour_documented_witness :
  parseColour "#1a2B3c80" = Ok (RGBA 26 43 60 128) /\
  parseColour "#12345" = invalid_colour.
Proof.
  split.
  - apply (parseColour_documented "#1a2B3c80"). discriminate.
  - apply (parseColour_documented "#12345"). discriminate.
Defined.

(** The parser never does anything but return a colour or throw
    ["invalid colour"], as long as the text is not empty. *)
Lemma parseColour_total_nonempty s :
  s <> EmptyString ->
  (exists c, parseColour s = Ok c) \/ parseColour s = invalid_colour.
Proof.
  destruct s as [|front rest]; [congruence|intros _].
  unfold parseColour. rewrite parse_digits_documented.
  destruct (hexits _ ≫= colour_of_hexits); eauto.
Qed.

(** C9 -- On the empty string the parser calls [s.front()], which is
    undefined behaviour: it neither returns a colour nor throws
    ["invalid colour"], so the parser is not total over all strings. *)
Theorem parseColour_empty_string_undefined :
  parseColour EmptyString = Undefined /\
  (forall c, parseColour EmptyString <> Ok c) /\
  parseColour EmptyString <> invalid_colour.
Proof. repeat split; try intros ?; discriminate. Qed.

(** C4 -- The empty text has none of the lengths 3, 4, 6, 8, so the
    documented result is [InvalidColorFormat]; the parser has undefined
    behaviour there instead of throwing. *)
Theorem parseColour_empty_not_invalid_colour :
  documented_colour EmptyString = None /\
  parseColour EmptyString <> invalid_colour /\
  parseColour "#" = invalid_colour.
Proof. repeat split; discriminate. Qed.

(** ** Loops *)

Section Loops.
Context {St : Type}.
Implicit Types (body : Z -> St -> outcome St) (I : Z -> St -> Prop).

Lemma for_loop_done lo hi body s : hi <= lo -> for_loop lo hi body s = Ok s.
Proof.
  intros. unfold for_loop. replace (Z.to_nat (hi - lo)) with O by lia.
  reflexivity.
Qed.

Lemma for_loop_step lo hi body s :
  lo < hi ->
  for_loop lo hi body s = body lo s ≫= for_loop (lo + 1) hi body.
Proof.
  intros. unfold for_loop.
  replace (Z.to_nat (hi - lo)) with (S (Z.to_nat (hi - (lo + 1)))) by lia.
  reflexivity.
Qed.

(** Partial correctness: an invariant carried through the iterations. *)
Lemma for_loop_invariant I lo hi body s s' :
  lo <= hi -> I lo s ->
  (forall i t t', lo <= i < hi -> I i t -> body i t = Ok t' -> I (i + 1) t') ->
  for_loop lo hi body s = Ok s' -> I hi s'.
Proof.
  intros Hle. remember (Z.to_nat (hi - lo)) as n eqn:Hn.
  revert lo s Hle Hn. induction n as [|n IH]; intros lo s Hle Hn H0 Hstep.
  - rewrite for_loop_done by lia. intros [= <-].
    replace hi with lo by lia. exact H0.
  - rewrite for_loop_step by lia.
    destruct (body lo s) as [t| |] eqn:Hb; cbn; try discriminate.
    apply IH; try lia.
    + apply (Hstep lo s t); [lia|exact H0|exact Hb].
    + intros i u u' Hi. apply Hstep. lia.
Qed.

(** Total correctness: when every iteration succeeds, so does the loop. *)
Lemma for_loop_total I lo hi body s :
  lo <= hi -> I lo s ->
  (forall i t, lo <= i < hi -> I i t ->
               exists t', body i t = Ok t' /\ I (i + 1) t') ->
  exists s', for_loop lo hi body s = Ok s' /\ I hi s'.
Proof.
  intros Hle. remember (Z.to_nat (hi - lo)) as n eqn:Hn.
  revert lo s Hle Hn. induction n as [|n IH]; intros lo s Hle Hn H0 Hstep.
  - rewrite for_loop_done by lia. exists s. split; [reflexivity|].
    replace hi with lo by lia. exact H0.
  - rewrite for_loop_step by lia.
    destruct (Hstep lo s) as (t & -> & Ht); [lia|exact H0|]. cbn.
    apply IH; try lia; [exact Ht|].
    intros i u Hi. apply Hstep. lia.
Qed.

Lemma for_each_app {A} (l1 l2 : list A) (body : A -> St -> outcome St) s :
  for_each (l1 ++ l2) body s = for_each l1 body s ≫= for_each l2 body.
Proof.
  revert s. induction l1 as [|x l1 IH]; intros s; cbn.
  - reflexivity.
  - destruct (body x s); cbn; auto.
Qed.
End Loops.

(** ** Writing one pixel *)

Lemma copy_Ok c output offset output' :
  copy c output offset = Ok output' ->
  offset + 4 <= Z.of_nat (length output) /\
  output' = list_inserts (Z.to_nat offset) (colour_bytes c) output.
Proof.
  unfold copy. destruct (Z.leb_spec (offset + 4) (Z.of_nat (length output)));
    intros [= <-]. auto.
Qed.

Lemma lookup_pixel_at output i k :
  0 <= i ->
  pixel_at output i !! k =
  if decide (k < 4)%nat then output !! (Z.to_nat (4 * i) + k)%nat else None.
Proof. intros. unfold pixel_at. rewrite lookup_take, lookup_drop. done. Qed.

Lemma pixel_at_copy c output j output' :
  0 <= j -> copy c output (4 * j) = Ok output' ->
  length output' = length output /\
  forall i, 0 <= i ->
    pixel_at output' i = if decide (i = j) then colour_bytes c
                         else pixel_at output i.
Proof.
  intros Hj [Hlen ->]%copy_Ok. split; [apply length_inserts|].
  intros i Hi. apply list_eq. intros k.
  rewrite lookup_pixel_at by lia.
  destruct (decide (i = j)) as [->|Hne].
  - destruct (decide (k < 4)%nat) as [Hk|Hk].
    + rewrite list_lookup_inserts by (cbn [length colour_bytes]; lia).
      f_equal. lia.
    + symmetry. apply lookup_ge_None. cbn. lia.
  - rewrite lookup_pixel_at by lia.
    destruct (decide (k < 4)%nat) as [Hk|Hk]; [|reflexivity].
    destruct (Z.lt_ge_cases i j).
    + apply list_lookup_inserts_lt. lia.
    + apply list_lookup_inserts_ge. cbn [length colour_bytes]. lia.
Qed.

(** ** Painting a rectangle *)

Lemma to_size_t_times_4 k : exists j, 0 <= j /\ to_size_t (k * 4) = 4 * j.
Proof.
  exists (k mod 2 ^ 62). split; [apply Z.mod_pos_bound; lia|].
  unfold to_size_t. replace (2 ^ 64) with (4 * 2 ^ 62) by reflexivity.
  rewrite (Z.mul_comm k 4). apply Z.mul_mod_distr_l; lia.
Qed.

Lemma pixel_offset_aligned width x y :
  exists j, 0 <= j /\ pixel_offset width x y = 4 * j.
Proof. apply to_size_t_times_4. Qed.

(** A loop that copies [c] to the offsets [off lo], ..., [off (hi - 1)]:
    a pixel ends up with [c] when one of the offsets is its own, and keeps
    its bytes otherwise. *)
Lemma copy_loop_spec c (off : Z -> Z) lo hi output output' :
  (forall x, exists j, 0 <= j /\ off x = 4 * j) ->
  for_loop lo hi (fun x out => copy c out (off x)) output = Ok output' ->
  length output' = length output /\
  forall i, 0 <= i ->
    (pixel_at output' i = colour_bytes c /\
     exists x, lo <= x < hi /\ off x = 4 * i) \/
    (pixel_at output' i = pixel_at output i /\
     forall x, lo <= x < hi -> off x <> 4 * i).
Proof.
  intros Hoff Hloop.
  destruct (Z.le_gt_cases lo hi) as [Hle|Hgt].
  2:{ rewrite for_loop_done in Hloop by lia. injection Hloop as <-.
      split; [reflexivity|]. intros i _. right. split; [reflexivity|]. lia. }
  revert Hloop.
  apply (for_loop_invariant (fun n out =>
    length out = length output /\
    forall i, 0 <= i ->
      (pixel_at out i = colour_bytes c /\
       exists x, lo <= x < n /\ off x = 4 * i) \/
      (pixel_at out i = pixel_at output i /\
       forall x, lo <= x < n -> off x <> 4 * i))); [exact Hle| |].
  - split; [reflexivity|]. intros i _. right. split; [reflexivity|]. lia.
  - intros n t t' Hn [Hlen Hpix] Hcopy.
    destruct (Hoff n) as (j & Hj & Hoj). rewrite Hoj in Hcopy.
    apply pixel_at_copy in Hcopy as [Hlen' Hpix']; [|exact Hj].
    split; [congruence|]. intros i Hi. rewrite Hpix' by exact Hi.
    destruct (decide (i = j)) as [->|Hne].
    + left. split; [reflexivity|]. exists n. split; [lia|exact Hoj].
    + destruct (Hpix i Hi) as [[Hc (x & Hx & Hox)]|[Hold Hnone]].
      * left. split; [exact Hc|]. exists x. split; [lia|exact Hox].
      * right. split; [exact Hold|]. intros x Hx.
        destruct (decide (x = n)) as [->|]; [|apply Hnone; lia].
        rewrite Hoj. lia.
Qed.

(** Lines 166-171 paint exactly the pixels the loops reach. *)
Lemma paint_spec c b width output output' :
  paint c b width output = Ok output' ->
  length output' = length output /\
  forall i, 0 <= i ->
    (pixel_at output' i = colour_bytes c /\ covers b width i) \/
    (pixel_at output' i = pixel_at output i /\ ~ covers b width i).
Proof.
  unfold paint. intros Hloop.
  destruct (Z.le_gt_cases (startY b) (endY b)) as [Hle|Hgt].
  2:{ rewrite for_loop_done in Hloop by lia. injection Hloop as <-.
      split; [reflexivity|]. intros i _. right. split; [reflexivity|].
      intros (x & y & _ & Hy & _). lia. }
  assert (length output' = length output /\
    forall i, 0 <= i ->
      (pixel_at output' i = colour_bytes c /\
       exists x y, startX b <= x < endX b /\ startY b <= y < endY b /\
                   pixel_offset width x y = 4 * i) \/
      (pixel_at output' i = pixel_at output i /\
       forall x y, startX b <= x < endX b -> startY b <= y < endY b ->
                   pixel_offset width x y <> 4 * i)) as [Hlen Hpix].
  { revert Hloop.
    apply (for_loop_invariant (fun n out =>
      length out = length output /\
      forall i, 0 <= i ->
        (pixel_at out i = colour_bytes c /\
         exists x y, startX b <= x < endX b /\ startY b <= y < n /\
                     pixel_offset width x y = 4 * i) \/
        (pixel_at out i = pixel_at output i /\
         forall x y, startX b <= x < endX b -> startY b <= y < n ->
                     pixel_offset width x y <> 4 * i))); [exact Hle| |].
    - split; [reflexivity|]. intros i _. right. split; [reflexivity|]. lia.
    - intros n t t' Hn [Hlen Hpix] Hrow.
      apply copy_loop_spec in Hrow as [Hlen' Hpix'];
        [|intros x; apply pixel_offset_aligned].
      split; [congruence|]. intros i Hi.
      destruct (Hpix' i Hi) as [[Hc (x & Hx & Hox)]|[Hold Hnone]].
      + left. split; [exact Hc|]. exists x, n.
        repeat split; first [lia | exact Hox].
      + rewrite Hold.
        destruct (Hpix i Hi) as [[Hc (x & y & Hx & Hy & Hox)]|[Hold' Hnone']].
        * left. split; [exact Hc|]. exists x, y.
          repeat split; first [lia | exact Hox].
        * right. split; [exact Hold'|]. intros x y Hx Hy.
          destruct (decide (y = n)) as [->|]; [apply Hnone; lia|].
          apply Hnone'; lia. }
  split; [exact Hlen|]. intros i Hi.
  destruct (Hpix i Hi) as [[Hc (x & y & Hx & Hy & Hox)]|[Hold Hnone]].
  - left. split; [exact Hc|]. exists x, y. auto.
  - right. split; [exact Hold|]. intros (x & y & Hx & Hy & Hox).
    exact (Hnone x y Hx Hy Hox).
Qed.

(** ** A rectangle of negative width *)

Lemma paint_negative_width :
  paint white (Bounds 0 (2 ^ 64 - 1) 0 1) 1 [0; 0; 0; 255] = Undefined.
Proof.
  unfold paint. cbn [startX endX startY endY].
  rewrite (for_loop_step 0 1) by lia.
  rewrite (for_loop_step 0 (2 ^ 64 - 1)) by lia.
  change (copy white [0; 0; 0; 255] (pixel_offset 1 0 0))
    with (Ok [255; 255; 255; 255] : outcome (list Z)).
  cbn [mbind outcome_bind].
  rewrite (for_loop_step (0 + 1) (2 ^ 64 - 1)) by lia.
  reflexivity.
Qed.

Lemma paint_element_negative_width :
  paint_element 1 1 negative_width [0; 0; 0; 255] = Undefined.
Proof.
  unfold paint_element.
  change (read_rectangle 1 1 negative_width)
    with (Ok (white, Bounds 0 (2 ^ 64 - 1) 0 1)).
  exact paint_negative_width.
Qed.

Lemma render_negative_width :
  render (image "a" (JInt 1) (JInt 1) "#000" [negative_width])
    (Build_Resolution 1 1) = Undefined.
Proof.
  unfold render.
  change (new_canvas _ _) with (Ok (Canvas 1 1 [0; 0; 0; 255])).
  cbn [mbind outcome_bind cv_width cv_height cv_output].
  change (at_key _ "elements") with (Ok (JArray [negative_width])).
  cbn [mbind outcome_bind items for_each].
  rewrite paint_element_negative_width. reflexivity.
Qed.

(** C1 -- A rectangle of width -1 at x = 0 on a one-pixel canvas: the end
    coordinate min(0 + (-1), 1) = -1 becomes 2^64 - 1 as a [size_t], the
    inner loop goes on past the canvas edge, and its second iteration
    writes the pixel x = 1 >= width, outside the four-byte buffer. *)
Theorem negative_width_writes_outside_canvas :
  read_rectangle 1 1 negative_width = Ok (white, Bounds 0 (2 ^ 64 - 1) 0 1) /\
  copy white [255; 255; 255; 255] (pixel_offset 1 1 0) = Undefined /\
  paint_element 1 1 negative_width [0; 0; 0; 255] = Undefined /\
  forall encoder,
    main always_directory encoder ["sidle"; "scene.json"] true
      (Ok negative_width_scene) =
    (UndefinedBehaviour,
     [Ecreate_directories (path_append (lexically_normal "out") "res1x1")
        dir_ok]).
Proof.
  split; [reflexivity|]. split; [reflexivity|].
  split; [exact paint_element_negative_width|].
  intros encoder. unfold main, try_block. cbn [negb].
  change (scene negative_width_scene)
    with (Ok (lexically_normal "out", [Build_Resolution 1 1],
              [image "a" (JInt 1) (JInt 1) "#000" [negative_width]])).
  cbn [io_for_each process_image]. unfold process.
  rewrite render_negative_width. reflexivity.
Qed.

(** ** Painting order *)

Lemma paint_element_Ok width height e output output' :
  paint_element width height e output = Ok output' ->
  exists c b, read_rectangle width height e = Ok (c, b) /\
              paint c b width output = Ok output'.
Proof.
  unfold paint_element.
  destruct (read_rectangle width height e) as [[c b]| |]; cbn;
    try discriminate.
  eauto.
Qed.

(** Elements that do not cover a pixel leave it as it was. *)
Lemma for_each_paint_untouched width height elements output output' i :
  for_each elements (paint_element width height) output = Ok output' ->
  0 <= i ->
  (forall e c b, e ∈ elements -> read_rectangle width height e = Ok (c, b) ->
                 ~ covers b width i) ->
  pixel_at output' i = pixel_at output i.
Proof.
  revert output. induction elements as [|e elements IH]; intros output.
  - intros [= <-]. reflexivity.
  - cbn [for_each]. intros Hrun Hi Hnone.
    destruct (paint_element width height e output) as [out1| |] eqn:He;
      cbn in Hrun; try discriminate.
    apply paint_element_Ok in He as (c & b & Hread & Hpaint).
    apply paint_spec in Hpaint as [_ Hpix].
    rewrite (IH out1 Hrun Hi).
    + destruct (Hpix i Hi) as [[_ Hcov]|[Hold _]]; [|exact Hold].
      exfalso. apply (Hnone e c b); [left|exact Hread|exact Hcov].
    + intros e' c' b' Hin. apply Hnone. right. exact Hin.
Qed.

(** C2, amended -- Elements are painted in list order with opaque
    overwrite: the final colour of a pixel is the colour of the last
    rectangle of the list that covers it (so the later of two rectangles
    wins when no rectangle after it covers the pixel), and a pixel no
    rectangle covers keeps what it had. *)
Theorem last_covering_rectangle_wins width height elements output output' i :
  for_each elements (paint_element width height) output = Ok output' ->
  0 <= i ->
  (forall before e after c b,
     elements = before ++ e :: after ->
     read_rectangle width height e = Ok (c, b) -> covers b width i ->
     (forall e' c' b', e' ∈ after ->
        read_rectangle width height e' = Ok (c', b') -> ~ covers b' width i) ->
     pixel_at output' i = colour_bytes c) /\
  ((forall e c b, e ∈ elements -> read_rectangle width height e = Ok (c, b) ->
                  ~ covers b width i) ->
   pixel_at output' i = pixel_at output i).
Proof.
  intros Hrun Hi. split; [|eauto using for_each_paint_untouched].
  intros before e after c b -> Hread Hcov Hafter.
  rewrite for_each_app in Hrun.
  destruct (for_each before (paint_element width height) output)
    as [out1| |]; cbn in Hrun; try discriminate.
  destruct (paint_element width height e out1) as [out2| |] eqn:He;
    cbn in Hrun; try discriminate.
  apply paint_element_Ok in He as (c' & b' & Hread' & Hpaint).
  rewrite Hread in Hread'. injection Hread' as <- <-.
  apply paint_spec in Hpaint as [_ Hpix].
  rewrite (for_each_paint_untouched _ _ _ _ _ _ Hrun Hi Hafter).
  destruct (Hpix i Hi) as [[Hc _]|[_ Hno]]; [exact Hc|contradiction].
Qed.

Lemma full_covers : covers (Bounds 0 1 0 1) 1 0.
Proof. exists 0, 0. cbn. repeat split; lia. Defined.

Lemma last_covering_rectangle_wins_witness :
  for_each red_green_blue (paint_element 1 1) [0; 0; 0; 255]
  = Ok [0; 0; 255; 255] /\
  pixel_at [0; 0; 255; 255] 0 = colour_bytes (RGBA 0 0 255 255).
Proof.
  split; [reflexivity|].
  refine (proj1 (last_covering_rectangle_wins 1 1 red_green_blue
                   [0; 0; 0; 255] [0; 0; 255; 255] 0 _ _)
            [full "#f00"; full "#0f0"] (full "#00f") []
            (RGBA 0 0 255 255) (Bounds 0 1 0 1) _ _ _ _).
  - reflexivity.
  - lia.
  - reflexivity.
  - reflexivity.
  - apply full_covers.
  - intros e' c' b' Hin. inversion Hin.
Defined.

(** C2 -- With three rectangles covering the same pixel, the pixel ends up
    with the colour of the third, not of the later of the first two. *)
Lemma later_of_two_wins_fails :
  ~ later_of_two_wins 1 1 red_green_blue [0; 0; 0; 255].
Proof.
  intros H.
  specialize (H [0; 0; 255; 255] 0 0%nat 1%nat
                (full "#f00") (RGBA 255 0 0 255) (Bounds 0 1 0 1)
                (full "#0f0") (RGBA 0 255 0 255) (Bounds 0 1 0 1)).
  discriminate H; first [reflexivity | lia | apply full_covers].
Qed.

(** ** Rectangles clamped to the canvas *)

Lemma to_size_t_small z : 0 <= z < 2 ^ 64 -> to_size_t z = z.
Proof. apply Z.mod_small. Qed.

Lemma pixel_offset_in_canvas width height x y :
  0 <= x < width -> 0 <= y < height -> width * height * 4 < 2 ^ 64 ->
  pixel_offset width x y = (y * width + x) * 4.
Proof.
  intros Hx Hy Hsize. unfold pixel_offset.
  assert (0 <= y * width + x < width * height) by nia.
  rewrite (to_size_t_small width) by nia.
  rewrite (to_size_t_small (y * width)) by nia.
  rewrite (to_size_t_small (y * width + x)) by nia.
  apply to_size_t_small. nia.
Qed.

Lemma covers_in_canvas b width height x y :
  0 <= x < width -> 0 <= y < height -> width * height * 4 < 2 ^ 64 ->
  0 <= startX b -> endX b <= width -> 0 <= startY b -> endY b <= height ->
  covers b width (y * width + x) <-> in_rectangle b x y = true.
Proof.
  intros Hx Hy Hsize HsX HeX HsY HeY. unfold in_rectangle, covers. split.
  - intros (x' & y' & Hx' & Hy' & Hoff).
    rewrite (pixel_offset_in_canvas width height) in Hoff by lia.
    assert (y' = y) as -> by nia. assert (x' = x) as -> by nia.
    repeat (apply andb_true_intro; split); lia.
  - intros H. repeat (apply andb_prop in H as [H ?]).
    exists x, y. repeat split; try lia.
    rewrite (pixel_offset_in_canvas width height) by lia. lia.
Qed.

Lemma for_loop_preserves {St} (P : St -> Prop) lo hi
  (body : Z -> St -> outcome St) s :
  P s ->
  (forall i t, lo <= i < hi -> P t -> exists t', body i t = Ok t' /\ P t') ->
  exists s', for_loop lo hi body s = Ok s' /\ P s'.
Proof.
  intros Hs Hstep. destruct (Z.le_gt_cases lo hi).
  - apply (for_loop_total (fun _ => P)); auto.
  - rewrite for_loop_done by lia. eauto.
Qed.

Lemma copy_in_bounds c output offset :
  0 <= offset -> offset + 4 <= Z.of_nat (length output) ->
  exists output', copy c output offset = Ok output' /\
                  length output' = length output.
Proof.
  intros H0 H. unfold copy. destruct (Z.leb_spec (offset + 4)
    (Z.of_nat (length output))); [|lia].
  eexists. split; [reflexivity|apply length_inserts].
Qed.

(** A rectangle whose end coordinates are within the canvas is painted
    without error; exactly the pixels of [startX, endX) x [startY, endY)
    take its colour, and every other pixel of the canvas keeps its own. *)
Lemma paint_clamped c b width height output :
  Z.of_nat (length output) = width * height * 4 ->
  width * height * 4 < 2 ^ 64 ->
  0 <= startX b -> endX b <= width -> 0 <= startY b -> endY b <= height ->
  exists output',
    paint c b width output = Ok output' /\
    length output' = length output /\
    forall x y, 0 <= x < width -> 0 <= y < height ->
      pixel_at output' (y * width + x) =
      if in_rectangle b x y then colour_bytes c
      else pixel_at output (y * width + x).
Proof.
  intros Hlen Hsize HsX HeX HsY HeY.
  destruct (for_loop_preserves (fun out => length out = length output)
              (startY b) (endY b)
              (fun y out =>
                 for_loop (startX b) (endX b)
                   (fun x out => copy c out (pixel_offset width x y)) out)
              output) as (output' & Hpaint & Hlen'); [reflexivity| |].
  { intros y t Hy Ht.
    apply (for_loop_preserves (fun out => length out = length output));
      [exact Ht|].
    intros x u Hx Hu.
    destruct (copy_in_bounds c u (pixel_offset width x y)) as (u' & -> & Hu').
    - rewrite (pixel_offset_in_canvas width height) by lia. nia.
    - rewrite (pixel_offset_in_canvas width height) by lia. nia.
    - exists u'. split; [reflexivity|congruence]. }
  exists output'. split; [exact Hpaint|]. split; [exact Hlen'|].
  intros x y Hx Hy.
  apply paint_spec in Hpaint as [_ Hpix].
  pose proof (covers_in_canvas b width height x y Hx Hy Hsize
                HsX HeX HsY HeY) as Hcov.
  destruct (Hpix (y * width + x)) as [[Hc Hin]|[Hold Hout]]; [nia| |].
  - apply Hcov in Hin. rewrite Hin. exact Hc.
  - destruct (in_rectangle b x y); [|exact Hold].
    contradiction Hout. apply Hcov. reflexivity.
Qed.

Lemma bind_Ok {A B} (m : outcome A) (f : A -> outcome B) b :
  m ≫= f = Ok b -> exists a, m = Ok a /\ f a = Ok b.
Proof. destruct m; cbn; try discriminate. eauto. Qed.

Lemma double_to_size_t_Ok d z :
  double_to_size_t d = Ok z -> 0 <= z <= SIZE_MAX.
Proof.
  unfold double_to_size_t, in_size_t. destruct (trunc d); [|discriminate].
  destruct (Z.leb_spec 0 z0), (Z.leb_spec z0 SIZE_MAX); cbn;
    intros [= <-]. lia.
Qed.

(** Lines 155-165, one axis: the start is not negative, and the end is
    [min(start + round(len * dim), dim)], within the canvas, whenever that
    minimum is not negative. *)
Lemma axis_clamped element pos len dim start stop :
  0 <= dim <= INT_MAX -> axis element pos len dim = Ok (start, stop) ->
  0 <= start /\
  exists l e,
    at_key element len ≫= get_double = Ok l /\
    double_to_int (dadd (double_of_Z start)
                     (c_round (dmul l (double_of_Z dim)))) = Ok e /\
    stop = to_size_t (Z.min e dim) /\
    (0 <= e -> stop = Z.min e dim /\ stop <= dim).
Proof.
  intros Hdim. unfold axis.
  intros (p & _ & (start' & Hstart & (l & Hl & (e & He & [= <- <-])%bind_Ok)
    %bind_Ok)%bind_Ok)%bind_Ok.
  apply double_to_size_t_Ok in Hstart. split; [lia|].
  exists l, e. repeat split; auto.
  - unfold INT_MAX in Hdim. apply to_size_t_small. lia.
  - unfold INT_MAX in Hdim. rewrite to_size_t_small; lia.
Qed.

Lemma rectangle_bounds_start element width height b :
  0 <= width <= INT_MAX -> 0 <= height <= INT_MAX ->
  rectangle_bounds element width height = Ok b ->
  0 <= startX b /\ 0 <= startY b.
Proof.
  intros Hw Hh. unfold rectangle_bounds.
  intros ([sx ex] & Hx & ([sy ey] & Hy & [= <-])%bind_Ok)%bind_Ok.
  apply axis_clamped in Hx as [Hx _]; [|exact Hw].
  apply axis_clamped in Hy as [Hy _]; [|exact Hh]. auto.
Qed.

Lemma read_rectangle_Ok width height element c b :
  read_rectangle width height element = Ok (c, b) ->
  rectangle_bounds element width height = Ok b.
Proof.
  unfold read_rectangle. intros (t & _ & Hread)%bind_Ok.
  destruct (String.eqb t "rectangle"); [|discriminate].
  apply bind_Ok in Hread as (? & _ & (? & _ & (b' & Hb & [= _ <-])%bind_Ok)
    %bind_Ok).
  exact Hb.
Qed.

(** A rectangle element whose end coordinates are within the canvas
    paints exactly the pixels of [startX, endX) x [startY, endY); an empty
    range paints nothing and is no error. *)
Lemma rectangle_clamped width height element c b output :
  0 <= width <= INT_MAX -> 0 <= height <= INT_MAX ->
  Z.of_nat (length output) = width * height * 4 ->
  width * height * 4 < 2 ^ 64 ->
  read_rectangle width height element = Ok (c, b) ->
  endX b <= width -> endY b <= height ->
  exists output',
    paint_element width height element output = Ok output' /\
    length output' = length output /\
    forall x y, 0 <= x < width -> 0 <= y < height ->
      pixel_at output' (y * width + x) =
      if in_rectangle b x y then colour_bytes c
      else pixel_at output (y * width + x).
Proof.
  intros Hw Hh Hlen Hsize Hread HeX HeY.
  unfold paint_element. rewrite Hread. cbn [mbind outcome_bind].
  destruct (rectangle_bounds_start element width height b Hw Hh
              (read_rectangle_Ok _ _ _ _ _ Hread)).
  apply (paint_clamped c b width height); auto.
Qed.

(** Scenario B on a 100 x 100 canvas: corners (25, 25) and (75, 75);
    scenario D: the rectangle is cut at the right and bottom edges. *)
Example scenario_bounds :
  read_rectangle 100 100 centred_square = Ok (white, Bounds 25 75 25 75) /\
  read_rectangle 100 100 sticking_out = Ok (white, Bounds 75 100 75 100).
Proof. split; reflexivity. Qed.

(** ** The canvas *)

Lemma binary_round_aux_not_negative m e l :
  not_negative (binary_round_aux 53 1024 false m e l) = true.
Proof.
  unfold binary_round_aux.
  destruct (shr_fexp 53 1024 m e l) as [mrs e'].
  destruct (shr_fexp 53 1024 _ e' loc_Exact) as [mrs' e''].
  destruct (shr_m mrs'); [reflexivity| |reflexivity].
  destruct (e'' <=? 1024 - 53)%Z; reflexivity.
Qed.

Lemma binary_normalize_not_negative z s :
  0 <= z -> not_negative (binary_normalize 53 1024 z 0 s) = true.
Proof.
  destruct z as [|p|p]; intros Hz; [destruct s; reflexivity| |lia].
  unfold binary_normalize, binary_round.
  destruct (shl_align _ _ _). apply binary_round_aux_not_negative.
Qed.


Lemma c_round_not_negative d :
  not_negative d = true -> not_negative (c_round d) = true.
Proof.
  intros Hd. destruct d as [s|s| |[] m e]; try discriminate; cbn;
    try reflexivity; [exact Hd|].
  destruct (Z.leb_spec 0 e); [reflexivity|].
    apply binary_normalize_not_negative. cbn [cond_Zopp].
    apply Z.div_pos; [|apply Z.pow_pos_nonneg; lia].
    pose proof (Z.pow_nonneg 2 (- e)). lia.
Qed.

Lemma trunc_not_negative d z :
  not_negative d = true -> trunc d = Some z -> 0 <= z.
Proof.
  intros Hd Ht. destruct d as [s|s| |[] m e]; try discriminate;
    injection Ht as <-; [lia|]. cbn [cond_Zopp].
  destruct (Z.leb_spec 0 e).
  - pose proof (Z.pow_pos_nonneg 2 e). lia.
  - apply Z.div_pos; [lia|apply Z.pow_pos_nonneg; lia].
Qed.




(** Lines 144-147: the background loop fills every pixel. *)
Lemma fill_background c n output :
  0 <= n -> Z.of_nat (length output) = n * 4 -> n * 4 < 2 ^ 64 ->
  exists output',
    for_loop 0 n (fun idx out => copy c out (to_size_t (idx * 4))) output
    = Ok output' /\
    length output' = length output /\
    forall i, 0 <= i < n -> pixel_at output' i = colour_bytes c.
Proof.
  intros Hn Hlen Hsize.
  destruct (for_loop_total (fun k out =>
              length out = length output /\
              forall i, 0 <= i < k -> pixel_at out i = colour_bytes c)
              0 n (fun idx out => copy c out (to_size_t (idx * 4))) output)
    as (output' & Hloop & Hlen' & Hpix); [exact Hn| | |eauto].
  - split; [reflexivity|]. lia.
  - intros idx t Hidx [Ht Hpix].
    rewrite to_size_t_small by lia. replace (idx * 4) with (4 * idx) by lia.
    destruct (copy_in_bounds c t (4 * idx)) as (t' & Hcopy & Ht'); [lia..|].
    exists t'. split; [exact Hcopy|]. split; [congruence|].
    apply pixel_at_copy in Hcopy as [_ Hcopy]; [|lia].
    intros i Hi. rewrite Hcopy by lia.
    destruct (decide (i = idx)); [reflexivity|]. apply Hpix. lia.
Qed.




(** ** The run as a sequence of pairs *)

Lemma actions_app tr1 tr2 : actions (tr1 ++ tr2) = actions tr1 ++ actions tr2.
Proof. apply omap_app. Qed.

Lemma io_for_each_app {A} (l1 l2 : list A) (body : A -> io unit) tr :
  io_for_each (l1 ++ l2) body tr =
  match io_for_each l1 body tr with
  | (Ok _, tr') => io_for_each l2 body tr'
  | r => r
  end.
Proof.
  revert tr. induction l1 as [|x l1 IH]; intros tr; cbn; [reflexivity|].
  destruct (body x tr) as [[[]| |] tr']; auto.
Qed.

Section Runs.
Variable fs : list event -> path -> dir_result.
Variable enc : list event -> path -> Z -> Z -> Z -> list Z -> Z.
Variable out : path.

(** One pair: either it is processed to the end, or it stops after its
    directory was ensured, without a file. *)
Lemma process_actions image resolution tr0 :
  let '(o, tr) := process fs enc out image resolution tr0 in
  (o = Ok tt /\
   actions tr = actions tr0 ++ pair_actions out (image, resolution))
  \/
  (o <> Ok tt /\
   actions tr = actions tr0 ++ [Create (resolution_folder out resolution)]).
Proof.
  unfold process, pair_actions, output_path, image_name. cbn [fst snd].
  destruct (fs tr0 _) eqn:Hfs;
    try (right; split; [discriminate|rewrite actions_app; reflexivity]).
  destruct (at_key image "name" ≫= get_string) as [name| |];
    cbn [mbind outcome_bind];
    try (right; split; [discriminate|rewrite actions_app; reflexivity]).
  destruct (render image resolution) as [cv| |];
    cbn [mbind outcome_bind];
    try (right; split; [discriminate|rewrite actions_app; reflexivity]).
  left. split; [reflexivity|].
  rewrite !actions_app, <- app_assoc. reflexivity.
Qed.

Lemma process_image_pairs resolutions image tr :
  process_image fs enc out resolutions image tr =
  io_for_each (resolution ← resolutions; [(image, resolution)])
    (process_pair fs enc out) tr.
Proof.
  unfold process_image. revert tr.
  induction resolutions as [|r rs IH]; intros tr; [reflexivity|].
  cbn. unfold process_pair at 1. cbn [fst snd].
  destruct (process fs enc out image r tr) as [[[]| |] tr']; auto.
Qed.

(** The nested loops visit the pairs one after the other. *)
Lemma nested_loops_pairs images resolutions tr :
  io_for_each images (process_image fs enc out resolutions) tr =
  io_for_each (pairs images resolutions) (process_pair fs enc out) tr.
Proof.
  revert tr. induction images as [|image images IH]; intros tr;
    [reflexivity|].
  change (pairs (image :: images) resolutions)
    with ((resolution ← resolutions; [(image, resolution)]) ++
          pairs images resolutions).
  rewrite io_for_each_app. cbn [io_for_each].
  rewrite <- process_image_pairs.
  destruct (process_image fs enc out resolutions image tr)
    as [[[]| |] tr']; auto.
Qed.

(** A run over a list of pairs: it completes them all, or completes the
    pairs before the first failing one and stops there. *)
Lemma pairs_actions ps tr0 :
  let '(o, tr) := io_for_each ps (process_pair fs enc out) tr0 in
  (o = Ok tt /\ actions tr = actions tr0 ++ (ps ≫= pair_actions out))
  \/
  (o <> Ok tt /\
   exists done p rest,
     ps = done ++ p :: rest /\
     actions tr =
     actions tr0 ++ (done ≫= pair_actions out) ++
     [Create (resolution_folder out p.2)]).
Proof.
  revert tr0. induction ps as [|[image resolution] ps IH]; intros tr0.
  { left. cbn. rewrite app_nil_r. auto. }
  cbn [io_for_each]. unfold process_pair at 1. cbn [fst snd].
  pose proof (process_actions image resolution tr0) as Hp.
  destruct (process fs enc out image resolution tr0) as [o tr1].
  destruct Hp as [[-> Htr1]|[Ho Htr1]].
  - specialize (IH tr1).
    destruct (io_for_each ps (process_pair fs enc out) tr1) as [o tr].
    destruct IH as [[-> Htr]|[Ho (done & p & rest & -> & Htr)]].
    + left. split; [reflexivity|].
      rewrite Htr, Htr1, <- app_assoc. reflexivity.
    + right. split; [exact Ho|].
      exists ((image, resolution) :: done), p, rest. split; [reflexivity|].
      rewrite Htr, Htr1, <- !app_assoc. reflexivity.
  - destruct o as [[]| |]; [congruence| |];
      (right; split; [exact Ho|]; exists [], (image, resolution), ps;
       split; [reflexivity|exact Htr1]).
Qed.
End Runs.

Lemma pairs_image_outer out resolutions images :
  pairs images resolutions ≫= pair_actions out =
  image_outer_actions out resolutions images.
Proof.
  unfold pairs, image_outer_actions.
  induction images as [|image images IH]; [reflexivity|].
  rewrite !bind_cons, bind_app, IH. f_equal.
  clear IH. induction resolutions as [|r rs IHr]; [reflexivity|].
  rewrite !bind_cons, bind_app, IHr. reflexivity.
Qed.

Lemma try_block_scene fs enc file tr0 :
  try_block fs enc (Ok file) tr0 =
  match scene file with
  | Ok (out, resolutions, images) =>
      io_for_each (pairs images resolutions) (process_pair fs enc out) tr0
  | Throw e => (Throw e, tr0)
  | Undefined => (Undefined, tr0)
  end.
Proof.
  unfold try_block. destruct (scene file) as [[[out ress] imgs]| |]; auto.
  apply nested_loops_pairs.
Qed.

(** ** The order of the loops *)

(** C5, amended -- The pipeline iterates images in the outer loop and
    resolutions in the inner loop; for every (image, resolution) pair it
    ensures the subdirectory "res" + width + "x" + height (once per pair,
    so again for every image) right before it writes that pair's file into
    it. *)
Theorem images_outer_resolutions_inner fs enc file tr out resolutions images :
  try_block fs enc (Ok file) [] = (Ok tt, tr) ->
  scene file = Ok (out, resolutions, images) ->
  actions tr = image_outer_actions out resolutions images.
Proof.
  intros Hrun Hscene. rewrite try_block_scene, Hscene in Hrun.
  pose proof (pairs_actions fs enc out (pairs images resolutions) []) as H.
  rewrite Hrun in H. destruct H as [[_ H]|[H _]]; [|congruence].
  rewrite H. apply pairs_image_outer.
Qed.

Lemma images_outer_resolutions_inner_witness :
  actions
    (try_block always_directory (encoder_returns 1) (Ok two_by_two) []).2 =
  [Create (path_append (lexically_normal "out") "res1x1");
   Write (path_append (path_append (lexically_normal "out") "res1x1") "a.tga");
   Create (path_append (lexically_normal "out") "res2x2");
   Write (path_append (path_append (lexically_normal "out") "res2x2") "a.tga");
   Create (path_append (lexically_normal "out") "res1x1");
   Write (path_append (path_append (lexically_normal "out") "res1x1") "b.tga");
   Create (path_append (lexically_normal "out") "res2x2");
   Write (path_append (path_append (lexically_normal "out") "res2x2") "b.tga")].
Proof.
  apply (images_outer_resolutions_inner always_directory (encoder_returns 1)
           two_by_two _ (lexically_normal "out")
           [Build_Resolution 1 1; Build_Resolution 2 2]
           [plain "a"; plain "b"]);
    reflexivity.
Defined.

(** C5 -- With two images and two resolutions the run goes a@1x1, a@2x2,
    b@1x1, b@2x2, ensuring a directory before each file: images are the
    outer loop, and each directory is ensured once per image. *)
Lemma resolution_outer_order_fails :
  ~ resolution_outer_order always_directory (encoder_returns 1) two_by_two.
Proof.
  intros H. specialize (H _ _ _ _ eq_refl eq_refl). discriminate H.
Qed.

(** ** Fatal errors *)

Lemma writes_pair_actions out done :
  List.filter is_write (done ≫= pair_actions out) =
  (fun p => Write (output_path out p.2 p.1)) <$> done.
Proof.
  induction done as [|p done IH]; [reflexivity|].
  cbn. rewrite <- IH. reflexivity.
Qed.

(** C7, amended -- A fatal error aborts the run at the first violation:
    nothing is handed to the encoder for the (image, resolution) pair in
    which it occurs nor for any later pair, while the files of the pairs
    completed before it have already been handed to the encoder. *)
Theorem fatal_error_stops_at_failing_pair fs enc file e tr :
  try_block fs enc (Ok file) [] = (Throw e, tr) ->
  (scene file = Throw e /\ tr = []) \/
  exists out resolutions images done p rest,
    scene file = Ok (out, resolutions, images) /\
    pairs images resolutions = done ++ p :: rest /\
    actions tr =
    (done ≫= pair_actions out) ++ [Create (resolution_folder out p.2)] /\
    writes tr = (fun p => Write (output_path out p.2 p.1)) <$> done.
Proof.
  rewrite try_block_scene.
  destruct (scene file) as [[[out ress] imgs]| |]; intros Hrun.
  - right. pose proof (pairs_actions fs enc out (pairs imgs ress) []) as H.
    rewrite Hrun in H.
    destruct H as [[H _]|[_ (done & p & rest & Hps & Htr)]]; [discriminate|].
    change (actions []) with (@nil action) in Htr.
    rewrite app_nil_l in Htr.
    exists out, ress, imgs, done, p, rest. repeat split; auto.
    unfold writes. rewrite Htr, List.filter_app, writes_pair_actions.
    apply app_nil_r.
  - left. injection Hrun as <- <-. auto.
  - discriminate.
Qed.

Lemma fatal_error_stops_at_failing_pair_witness :
  (scene good_then_bad = invalid_colour /\
   (try_block always_directory (encoder_returns 1) (Ok good_then_bad) []).2
   = []) \/
  exists out resolutions images done p rest,
    scene good_then_bad = Ok (out, resolutions, images) /\
    pairs images resolutions = done ++ p :: rest /\
    actions
      (try_block always_directory (encoder_returns 1)
         (Ok good_then_bad) []).2 =
    (done ≫= pair_actions out) ++ [Create (resolution_folder out p.2)] /\
    writes
      (try_block always_directory (encoder_returns 1)
         (Ok good_then_bad) []).2 =
    (fun p => Write (output_path out p.2 p.1)) <$> done.
Proof.
  apply (fatal_error_stops_at_failing_pair always_directory
           (encoder_returns 1) good_then_bad).
  reflexivity.
Defined.

(** C7 -- The file of the first image is handed to the encoder before the
    invalid background of the second image aborts the run. *)
Lemma no_partial_output_fails :
  ~ no_partial_output always_directory (encoder_returns 1) good_then_bad.
Proof.
  intros H. specialize (H _ _ eq_refl). discriminate H.
Qed.

(** ** Exit codes *)

Lemma npe_bind {A B} (m : outcome A) (f : A -> outcome B) :
  not_parse_error m -> (forall a, not_parse_error (f a)) ->
  not_parse_error (m ≫= f).
Proof.
  unfold not_parse_error. destruct m; cbn; auto. congruence.
Qed.

Lemma npe_for_range {St} n i (body : Z -> St -> outcome St) s :
  (forall i s, not_parse_error (body i s)) ->
  not_parse_error (for_range n i body s).
Proof.
  intros Hb. revert i s. induction n as [|n IH]; intros i s; cbn.
  - discriminate.
  - apply npe_bind; auto.
Qed.

Lemma npe_for_each {A St} (l : list A) (body : A -> St -> outcome St) s :
  (forall x s, not_parse_error (body x s)) ->
  not_parse_error (for_each l body s).
Proof.
  intros Hb. revert s. induction l as [|x l IH]; intros s; cbn.
  - discriminate.
  - apply npe_bind; auto.
Qed.

Ltac npe :=
  repeat first
    [ apply npe_bind; [|intros]
    | apply npe_for_range; intros
    | apply npe_for_each; intros
    | match goal with
      | |- not_parse_error (match ?x with _ => _ end) => destruct x
      | |- not_parse_error (if ?b then _ else _) => destruct b
      | |- not_parse_error (let (_, _) := ?x in _) => destruct x
      end
    | discriminate ].

Lemma npe_get_double_at j key : not_parse_error (at_key j key ≫= get_double).
Proof. unfold at_key, get_double. npe. Qed.

Lemma npe_get_string_at j key : not_parse_error (at_key j key ≫= get_string).
Proof. unfold at_key, get_string. npe. Qed.

Lemma npe_get_int_at j idx : not_parse_error (at_index j idx ≫= get_int).
Proof. unfold at_index, get_int, double_to_int. npe. Qed.

Lemma npe_parseColour s : not_parse_error (parseColour s).
Proof. unfold parseColour, parse_digits. npe. Qed.

Lemma npe_copy c output offset : not_parse_error (copy c output offset).
Proof. unfold copy. npe. Qed.

Lemma npe_scaled j key n : not_parse_error (scaled j key n).
Proof.
  unfold scaled. apply npe_bind; [apply npe_get_double_at|intros].
  unfold double_to_int. npe.
Qed.

Lemma npe_axis element pos len dim : not_parse_error (axis element pos len dim).
Proof.
  unfold axis.
  apply npe_bind; [apply npe_get_double_at|intros].
  apply npe_bind; [unfold double_to_size_t; npe|intros].
  apply npe_bind; [apply npe_get_double_at|intros].
  apply npe_bind; [unfold double_to_int; npe|intros]. discriminate.
Qed.

Lemma npe_render image resolution : not_parse_error (render image resolution).
Proof.
  unfold render. apply npe_bind; [|intros cv].
  { unfold new_canvas.
    apply npe_bind; [apply npe_scaled|intros].
    apply npe_bind; [apply npe_scaled|intros].
    apply npe_bind; [unfold int_mul; npe|intros].
    apply npe_bind; [unfold int_mul; npe|intros].
    apply npe_bind; [unfold make_unique; npe|intros].
    apply npe_bind; [apply npe_get_string_at|intros].
    apply npe_bind; [apply npe_parseColour|intros].
    apply npe_bind; [|intros; discriminate].
    apply npe_for_range. intros. apply npe_copy. }
  apply npe_bind; [unfold at_key; npe|intros elements].
  apply npe_bind; [|intros; discriminate].
  apply npe_for_each. intros element output.
  unfold paint_element. apply npe_bind.
  - unfold read_rectangle.
    apply npe_bind; [apply npe_get_string_at|intros].
    destruct (String.eqb _ _); [|discriminate].
    apply npe_bind; [apply npe_get_string_at|intros].
    apply npe_bind; [apply npe_parseColour|intros].
    apply npe_bind; [|intros; discriminate].
    unfold rectangle_bounds.
    apply npe_bind; [apply npe_axis|intros []].
    apply npe_bind; [apply npe_axis|intros []]. discriminate.
  - intros [c b]. unfold paint. apply npe_for_range. intros.
    apply npe_for_range. intros. apply npe_copy.
Qed.

Lemma npe_scene file : not_parse_error (scene file).
Proof.
  unfold scene.
  apply npe_bind; [apply npe_get_string_at|intros].
  apply npe_bind; [unfold at_key; npe|intros].
  apply npe_bind.
  { apply npe_for_each. intros. unfold read_resolution.
    apply npe_bind; [apply npe_get_int_at|intros].
    apply npe_bind; [apply npe_get_int_at|intros]. discriminate. }
  intros. apply npe_bind; [unfold at_key; npe|intros]. discriminate.
Qed.

Lemma npe_process fs enc out image resolution tr :
  not_parse_error (process fs enc out image resolution tr).1.
Proof.
  unfold process. destruct (fs tr _); try discriminate.
  pose proof (npe_get_string_at image "name") as Hname.
  pose proof (npe_render image resolution) as Hrender.
  destruct (at_key image "name" ≫= get_string) as [name|e|];
    cbn [mbind outcome_bind];
    [|intros [= ->]; apply Hname; reflexivity|discriminate].
  destruct (render image resolution) as [cv|e|];
    cbn [mbind outcome_bind];
    [discriminate|intros [= ->]; apply Hrender; reflexivity|discriminate].
Qed.

Lemma npe_run {A} (l : list A) (body : A -> io unit) tr :
  (forall x tr, not_parse_error (body x tr).1) ->
  not_parse_error (io_for_each l body tr).1.
Proof.
  intros Hb. revert tr. induction l as [|x l IH]; intros tr; cbn.
  - discriminate.
  - specialize (Hb x tr). destruct (body x tr) as [[[]|e|] tr']; auto.
Qed.

Lemma npe_try_block fs enc file tr :
  not_parse_error (try_block fs enc (Ok file) tr).1.
Proof.
  rewrite try_block_scene. pose proof (npe_scene file) as Hs.
  destruct (scene file) as [[[out ress] imgs]|e|];
    [|intros [= ->]; apply Hs; reflexivity|discriminate].
  apply npe_run. intros [image r] tr'. apply npe_process.
Qed.

(** Once the description is parsed, every exception the handlers catch
    leads to [return 0]: the process never exits with code 1. *)
Lemma caught_errors_exit_zero fs enc argv0 argv1 file e tr :
  try_block fs enc (Ok file) [] = (Throw e, tr) ->
  e <> bad_alloc ->
  exists m, main fs enc [argv0; argv1] true (Ok file) =
            (Exit 0, tr ++ [Ecerr m]).
Proof.
  intros Hrun He. unfold main. cbn [negb].
  pose proof (npe_try_block fs enc file []) as Hparse.
  rewrite Hrun in *. unfold not_parse_error in Hparse. cbn in Hparse.
  destruct e; try congruence; eauto.
Qed.

Lemma caught_errors_exit_zero_witness :
  exists m, main always_directory (encoder_returns 1) ["sidle"; "scene.json"]
              true (Ok bad_background) =
            (Exit 0, [Ecreate_directories res1x1 dir_ok] ++ [Ecerr m]).
Proof.
  apply (caught_errors_exit_zero always_directory (encoder_returns 1)
           "sidle" "scene.json" bad_background
           (runtime_error "invalid colour")).
  - reflexivity.
  - discriminate.
Defined.

(** The sibling handler: a description that does not parse exits with
    code 1. *)
Example parse_error_exits_one fs enc :
  main fs enc ["sidle"; "scene.json"] true (Throw json_parse_error) =
  (Exit 1, [Ecerr (could_not_parse "scene.json")]).
Proof. reflexivity. Qed.

(** C6 -- For each kind of fatal processing error (a missing member, an
    invalid colour, an unsupported element type, an output directory that
    cannot be created) the handler prints the message and falls through to
    [return 0]: the process exits with code 0, not 1. *)
Theorem fatal_processing_errors_exit_zero :
  forall encoder,
    main always_directory encoder ["sidle"; "scene.json"] true
      (Ok missing_output_path) =
    (Exit 0, [Ecerr (invalid_description json_out_of_range)]) /\
    main always_directory encoder ["sidle"; "scene.json"] true
      (Ok bad_background) =
    (Exit 0, [Ecreate_directories res1x1 dir_ok;
              Ecerr (error "invalid colour")]) /\
    main always_directory encoder ["sidle"; "scene.json"] true
      (Ok with_ellipse) =
    (Exit 0, [Ecreate_directories res1x1 dir_ok;
              Ecerr (error "invalid type")]) /\
    main never_directory encoder ["sidle"; "scene.json"] true
      (Ok (description "out" [(1, 1)] [plain "a"])) =
    (Exit 0, [Ecreate_directories res1x1 dir_not_directory;
              Ecerr (error "could not create output folder")]).
Proof. intros encoder. repeat split. Qed.

(** ** Unsupported element types *)

Lemma for_each_Ok_each {A St} (l : list A) (body : A -> St -> outcome St)
  s s' x :
  for_each l body s = Ok s' -> x ∈ l -> exists s1 s2, body x s1 = Ok s2.
Proof.
  revert s. induction l as [|y l IH]; intros s Hrun Hin; [inversion Hin|].
  cbn in Hrun. destruct (body y s) as [s1| |] eqn:Hy; try discriminate.
  apply elem_of_cons in Hin as [->|Hin]; eauto.
Qed.

Lemma read_rectangle_unsupported width height element t :
  at_key element "type" ≫= get_string = Ok t -> t <> "rectangle" ->
  read_rectangle width height element = Throw (runtime_error "invalid type").
Proof.
  intros Ht Hne. unfold read_rectangle. rewrite Ht. cbn.
  destruct (String.eqb_spec t "rectangle"); [contradiction|reflexivity].
Qed.

Lemma render_not_Ok image resolution elements element :
  at_key image "elements" = Ok elements -> element ∈ items elements ->
  (forall width height output,
     paint_element width height element output
     = Throw (runtime_error "invalid type")) ->
  forall cv, render image resolution <> Ok cv.
Proof.
  intros Helements Hin Hpaint cv. unfold render.
  destruct (new_canvas image resolution) as [cv0| |]; cbn; try discriminate.
  rewrite Helements. cbn.
  destruct (for_each _ _ _) as [output| |] eqn:Hrun; cbn; try discriminate.
  destruct (for_each_Ok_each _ _ _ _ _ Hrun Hin) as (s1 & s2 & Hok).
  rewrite Hpaint in Hok. discriminate.
Qed.

Lemma process_not_rendered fs enc out image resolution tr0 :
  (forall cv, render image resolution <> Ok cv) ->
  (forall u, (process fs enc out image resolution tr0).1 <> Ok u) /\
  writes (process fs enc out image resolution tr0).2 = writes tr0.
Proof.
  intros Hrender.
  assert (forall r, writes (tr0 ++ [Ecreate_directories
            (resolution_folder out resolution) r]) = writes tr0) as Hw.
  { intros r. unfold writes. rewrite actions_app, List.filter_app.
    apply app_nil_r. }
  unfold process. destruct (fs tr0 _); cbn [fst snd];
    try (split; [discriminate|apply Hw]).
  destruct (at_key image "name" ≫= get_string) as [name| |];
    cbn [mbind outcome_bind fst snd];
    try (split; [discriminate|apply Hw]).
  destruct (render image resolution) as [cv| |];
    cbn [mbind outcome_bind fst snd];
    try (split; [discriminate|apply Hw]).
  contradiction (Hrender cv). reflexivity.
Qed.

(** C8 -- An element whose type is not ["rectangle"] makes rendering fail
    with ["invalid type"], whatever the buffer, and at once when the
    elements before it were painted; no file is handed to the encoder for
    the image that contains it, at any resolution. *)
Theorem unsupported_element_type element t :
  at_key element "type" ≫= get_string = Ok t -> t <> "rectangle" ->
  (forall width height output,
     paint_element width height element output
     = Throw (runtime_error "invalid type")) /\
  (forall width height before after output output1,
     for_each before (paint_element width height) output = Ok output1 ->
     for_each (before ++ element :: after) (paint_element width height) output
     = Throw (runtime_error "invalid type")) /\
  (forall fs enc out resolutions image elements tr0,
     at_key image "elements" = Ok elements -> element ∈ items elements ->
     writes (process_image fs enc out resolutions image tr0).2 = writes tr0 /\
     (resolutions <> [] ->
      forall u, (process_image fs enc out resolutions image tr0).1 <> Ok u)).
Proof.
  intros Ht Hne.
  assert (forall width height output,
            paint_element width height element output
            = Throw (runtime_error "invalid type")) as Hpaint.
  { intros. unfold paint_element.
    rewrite (read_rectangle_unsupported _ _ _ _ Ht Hne). reflexivity. }
  split; [exact Hpaint|]. split.
  - intros width height before after output output1 Hbefore.
    rewrite for_each_app, Hbefore. cbn. rewrite Hpaint. reflexivity.
  - intros fs enc out resolutions image elements tr0 Helements Hin.
    unfold process_image.
    destruct resolutions as [|r rs]; [split; [reflexivity|congruence]|].
    cbn [io_for_each].
    destruct (process_not_rendered fs enc out image r tr0) as [Hno Hw].
    { eauto using render_not_Ok. }
    destruct (process fs enc out image r tr0) as [[[]| |] tr1];
      cbn [fst snd] in *.
    + contradiction (Hno ()). reflexivity.
    + split; [exact Hw|discriminate].
    + split; [exact Hw|discriminate].
Qed.

Lemma unsupported_element_type_witness :
  paint_element 1 1 ellipse [0; 0; 0; 255]
  = Throw (runtime_error "invalid type").
Proof.
  apply (unsupported_element_type ellipse "ellipse").
  - reflexivity.
  - discriminate.
Defined.

(** ** The encoder's return value *)

Lemma forget_app tr1 tr2 : forget (tr1 ++ tr2) = forget tr1 ++ forget tr2.
Proof. apply fmap_app. Qed.

Section Encoders.
Variable fs : list event -> path -> dir_result.
Variables enc enc' : list event -> path -> Z -> Z -> Z -> list Z -> Z.
Hypothesis fs_forget :
  forall tr tr' p, forget tr = forget tr' -> fs tr p = fs tr' p.

Lemma process_forget out image resolution tr tr' :
  forget tr = forget tr' ->
  (process fs enc out image resolution tr).1 =
  (process fs enc' out image resolution tr').1 /\
  forget (process fs enc out image resolution tr).2 =
  forget (process fs enc' out image resolution tr').2.
Proof.
  intros Htr. unfold process.
  rewrite (fs_forget tr tr' _ Htr).
  destruct (fs tr' _); cbn [fst snd];
    try (split; [reflexivity|rewrite !forget_app, Htr; reflexivity]).
  destruct (at_key image "name" ≫= get_string) as [name| |];
    cbn [mbind outcome_bind fst snd];
    try (split; [reflexivity|rewrite !forget_app, Htr; reflexivity]).
  destruct (render image resolution) as [cv| |];
    cbn [mbind outcome_bind fst snd];
    split; try reflexivity; rewrite !forget_app, Htr; reflexivity.
Qed.

Lemma io_for_each_forget {A} (l : list A) (body body' : A -> io unit) :
  (forall x tr tr', forget tr = forget tr' ->
     (body x tr).1 = (body' x tr').1 /\
     forget (body x tr).2 = forget (body' x tr').2) ->
  forall tr tr', forget tr = forget tr' ->
    (io_for_each l body tr).1 = (io_for_each l body' tr').1 /\
    forget (io_for_each l body tr).2 = forget (io_for_each l body' tr').2.
Proof.
  intros Hbody. induction l as [|x l IH]; intros tr tr' Htr; cbn.
  - auto.
  - destruct (Hbody x tr tr' Htr) as [Ho Hf].
    destruct (body x tr) as [o tr1], (body' x tr') as [o' tr1'].
    cbn [fst snd] in *. subst o'.
    destruct o as [[]| |]; auto.
Qed.

Lemma try_block_forget parsed :
  (try_block fs enc parsed []).1 = (try_block fs enc' parsed []).1 /\
  forget (try_block fs enc parsed []).2 =
  forget (try_block fs enc' parsed []).2.
Proof.
  destruct parsed as [file| |]; [|auto..].
  rewrite !try_block_scene.
  destruct (scene file) as [[[out ress] imgs]| |]; auto.
  apply io_for_each_forget; [|reflexivity].
  intros [image r] tr tr'. apply process_forget.
Qed.
End Encoders.

(** As long as the file system does not react to what the encoder
    returns, two runs that differ in the encoder only end with the same
    status and the same events up to the values returned. *)
Lemma encoder_return_unused fs enc enc' argv fin_good parsed :
  (forall tr tr' p, forget tr = forget tr' -> fs tr p = fs tr' p) ->
  (main fs enc argv fin_good parsed).1 =
  (main fs enc' argv fin_good parsed).1 /\
  forget (main fs enc argv fin_good parsed).2 =
  forget (main fs enc' argv fin_good parsed).2.
Proof.
  intros Hfs. unfold main.
  destruct argv as [|argv0 [|argv1 [|argv2 argv]]]; auto.
  destruct fin_good; cbn [negb]; auto.
  destruct (try_block_forget fs enc enc' Hfs parsed) as [Ho Hf].
  destruct (try_block fs enc parsed []) as [o tr].
  destruct (try_block fs enc' parsed []) as [o' tr'].
  cbn [fst snd] in *. subst o'.
  destruct o as [[]|[]|]; cbn [fst snd];
    rewrite ?forget_app, ?Hf; auto.
Qed.

(** * Further properties *)

(** ** The colour parser *)

(** X2 -- [parseHexit] gives a hexit its value, between 0 and 15, with letters in
    either case. *)
Theorem parseHexit_hexit c v :
  hexit_value c = Some v -> parseHexit c = v /\ 0 <= v <= 15.
Proof. intros H. apply hexit_value_Some in H. tauto. Qed.

Lemma parseHexit_hexit_witness :
  parseHexit "f" = 15 /\ 0 <= 15 <= 15.
Proof. apply (parseHexit_hexit "f" 15). reflexivity. Defined.

Lemma hexit_value_to_lower c : hexit_value (to_lower c) = hexit_value c.
Proof. destruct c as [[] [] [] [] [] [] [] []]; reflexivity. Qed.

Lemma to_lower_hash c : Ascii.eqb (to_lower c) "#" = Ascii.eqb c "#".
Proof. destruct c as [[] [] [] [] [] [] [] []]; reflexivity. Qed.

Lemma hexits_lowercase s : hexits (lowercase s) = hexits s.
Proof.
  induction s as [|c s IH]; [reflexivity|].
  cbn [lowercase hexits]. rewrite hexit_value_to_lower, IH. reflexivity.
Qed.

(** X3 -- The parser does not tell upper case from lower case: a text and its
    lower-case form give the same result. *)
Theorem parseColour_case_insensitive s :
  parseColour (lowercase s) = parseColour s.
Proof.
  destruct s as [|c s]; [reflexivity|].
  cbn [lowercase parseColour]. rewrite to_lower_hash.
  destruct (Ascii.eqb c "#").
  - rewrite !parse_digits_documented, hexits_lowercase. reflexivity.
  - change (String (to_lower c) (lowercase s)) with (lowercase (String c s)).
    rewrite !parse_digits_documented, hexits_lowercase. reflexivity.
Qed.

(** X4 -- The short forms are the long forms with every hexit doubled: "#abc"
    is "#aabbcc" and "#abcd" is "#aabbccdd", whatever the characters. *)
Theorem parseColour_shorthand (r g b a : ascii) :
  parseColour (String "#" (String r (String g (String b EmptyString)))) =
  parseColour (String "#" (String r (String r (String g (String g
                 (String b (String b EmptyString))))))) /\
  parseColour (String "#" (String r (String g (String b
                 (String a EmptyString))))) =
  parseColour (String "#" (String r (String r (String g (String g
                 (String b (String b (String a (String a EmptyString))))))))).
Proof.
  cbn [parseColour]. change (Ascii.eqb "#" "#") with true. cbn iota.
  rewrite !parse_digits_documented. cbn [hexits].
  destruct (hexit_value r) as [vr|], (hexit_value g) as [vg|],
    (hexit_value b) as [vb|]; cbn; try (split; reflexivity).
  split.
  - do 2 f_equal; lia.
  - destruct (hexit_value a) as [va|]; cbn; [|reflexivity].
    do 2 f_equal; lia.
Qed.

Lemma parse_digits_bytes s c :
  parse_digits s = Ok c -> Forall is_byte (colour_bytes c).
Proof.
  unfold parse_digits, colour_bytes.
  assert (forall z, is_byte (to_uint8_t z)) as Hb
    by (intros; apply Z.mod_pos_bound; lia).
  assert (is_byte 255) as H255 by (unfold is_byte; lia).
  destruct (find_first_not_of _ s); [discriminate|].
  repeat match goal with
    | |- context [if ?b then _ else _] => destruct b
    end; intros [= <-]; cbn [red green blue alpha];
    repeat first [apply Forall_cons_2; [solve [auto]|] | apply Forall_nil_2].
Qed.

(** Every channel of a parsed colour is a byte. *)
Theorem parseColour_bytes s c :
  parseColour s = Ok c -> Forall is_byte (colour_bytes c).
Proof.
  destruct s as [|front rest]; [discriminate|]. apply parse_digits_bytes.
Qed.

Lemma parseColour_bytes_witness :
  Forall is_byte (colour_bytes (RGBA 26 43 60 128)).
Proof. apply (parseColour_bytes "#1a2B3c80"). reflexivity. Defined.

(** ** Painting *)

(** X5 -- A rectangle whose range is empty on either axis (for instance one that
    starts at or beyond the right or bottom edge) paints nothing and is no
    error, whatever the buffer. *)
Theorem paint_empty_range c b width output :
  endX b <= startX b \/ endY b <= startY b ->
  paint c b width output = Ok output.
Proof.
  intros Hempty. unfold paint.
  destruct (Z.le_gt_cases (endY b) (startY b)) as [Hy|Hy];
    [apply for_loop_done; exact Hy|].
  destruct Hempty as [Hx|]; [|lia].
  destruct (for_loop_preserves (fun out => out = output)
              (startY b) (endY b)
              (fun y out =>
                 for_loop (startX b) (endX b)
                   (fun x out => copy c out (pixel_offset width x y)) out)
              output) as (output' & -> & ->); [reflexivity| |reflexivity].
  intros y t _ ->. exists output. split; [|reflexivity].
  apply for_loop_done. exact Hx.
Qed.

Lemma paint_empty_range_witness :
  paint white (Bounds 200 100 0 50) 100 [] = Ok [].
Proof. apply (paint_empty_range white (Bounds 200 100 0 50) 100 []). cbn. lia. Defined.

Lemma dmul_nn x y :
  not_negative x = true -> not_negative y = true ->
  not_negative (dmul x y) = true.
Proof.
  intros Hx Hy.
  destruct x as [sx|[]| |[] mx ex], y as [sy|[]| |[] my ey];
    try discriminate; try reflexivity.
  apply binary_round_aux_not_negative.
Qed.

Lemma binary_normalize_nn z e s :
  0 <= z -> not_negative (binary_normalize 53 1024 z e s) = true.
Proof.
  destruct z as [|p|p]; intros Hz; [destruct s; reflexivity| |lia].
  unfold binary_normalize, binary_round.
  destruct (shl_align _ _ _). apply binary_round_aux_not_negative.
Qed.

Lemma dadd_nn x y :
  not_negative x = true -> not_negative y = true ->
  not_negative (dadd x y) = true.
Proof.
  intros Hx Hy.
  destruct x as [sx|[]| |[] mx ex], y as [sy|[]| |[] my ey];
    try discriminate; try reflexivity.
  - destruct sx, sy; reflexivity.
  - unfold dadd, SFadd. cbn [cond_Zopp].
    destruct (shl_align mx ex (Z.min ex ey)) as [m1 e1].
    destruct (shl_align my ey (Z.min ex ey)) as [m2 e2]. cbn [fst].
    apply binary_normalize_nn. lia.
Qed.

Lemma double_to_int_nn d e :
  not_negative d = true -> double_to_int d = Ok e -> 0 <= e.
Proof.
  unfold double_to_int. intros Hd.
  destruct (trunc d) as [z|] eqn:Ht; [|discriminate].
  destruct (in_int z); intros [= <-]. eauto using trunc_not_negative.
Qed.

(** With a length that is not negative, the end coordinate of an axis is
    within the canvas. *)
Lemma axis_not_negative element pos len dim start stop l :
  0 <= dim <= INT_MAX -> axis element pos len dim = Ok (start, stop) ->
  at_key element len ≫= get_double = Ok l -> not_negative l = true ->
  0 <= start /\ stop <= dim.
Proof.
  intros Hdim Haxis Hl Hnn.
  destruct (axis_clamped _ _ _ _ _ _ Hdim Haxis)
    as (Hstart & l' & e & Hl' & He & _ & Hstop).
  rewrite Hl in Hl'. injection Hl' as <-. split; [exact Hstart|].
  apply Hstop. apply (fun H => double_to_int_nn _ _ H He).
  apply dadd_nn; [apply binary_normalize_not_negative; exact Hstart|].
  apply c_round_not_negative, dmul_nn; [exact Hnn|].
  apply binary_normalize_not_negative. lia.
Qed.

Lemma rectangle_ends_in_canvas width height element c b lw lh :
  0 <= width <= INT_MAX -> 0 <= height <= INT_MAX ->
  read_rectangle width height element = Ok (c, b) ->
  at_key element "width" ≫= get_double = Ok lw -> not_negative lw = true ->
  at_key element "height" ≫= get_double = Ok lh -> not_negative lh = true ->
  endX b <= width /\ endY b <= height.
Proof.
  intros Hw Hh Hread Hlw Hnw Hlh Hnh.
  pose proof (read_rectangle_Ok _ _ _ _ _ Hread) as Hb.
  unfold rectangle_bounds in Hb.
  apply bind_Ok in Hb as ([sx ex] & Hx & ([sy ey] & Hy & [= <-])%bind_Ok).
  destruct (axis_not_negative _ _ _ _ _ _ _ Hw Hx Hlw Hnw) as [_ HeX].
  destruct (axis_not_negative _ _ _ _ _ _ _ Hh Hy Hlh Hnh) as [_ HeY].
  auto.
Qed.

(** X6 -- On a canvas whose [int] width and height are not negative and
    whose buffer holds [width * height * 4] bytes, a rectangle whose
    width and height members are not negative is clipped at the right and
    bottom edges: its end coordinates are within the canvas, painting it
    is no error, and exactly the pixels of
    [startX, endX) x [startY, endY) take its colour. *)
Theorem rectangle_clipped_to_canvas width height element c b lw lh output :
  0 <= width <= INT_MAX -> 0 <= height <= INT_MAX ->
  Z.of_nat (length output) = width * height * 4 ->
  read_rectangle width height element = Ok (c, b) ->
  at_key element "width" ≫= get_double = Ok lw -> not_negative lw = true ->
  at_key element "height" ≫= get_double = Ok lh -> not_negative lh = true ->
  endX b <= width /\ endY b <= height /\
  exists output',
    paint_element width height element output = Ok output' /\
    length output' = length output /\
    forall x y, 0 <= x < width -> 0 <= y < height ->
      pixel_at output' (y * width + x) =
      if in_rectangle b x y then colour_bytes c
      else pixel_at output (y * width + x).
Proof.
  intros Hw Hh Hlen Hread Hlw Hnw Hlh Hnh.
  destruct (rectangle_ends_in_canvas _ _ _ _ _ _ _
              Hw Hh Hread Hlw Hnw Hlh Hnh) as [HeX HeY].
  split; [exact HeX|]. split; [exact HeY|].
  apply (rectangle_clamped width height element c); auto.
  unfold INT_MAX in *. nia.
Qed.

Lemma rectangle_clipped_to_canvas_witness :
  endX (Bounds 3 4 3 4) <= 4 /\ endY (Bounds 3 4 3 4) <= 4 /\
  exists output',
    paint_element 4 4 sticking_out (replicate 64 0) = Ok output' /\
    length output' = length (replicate 64 0) /\
    forall x y, 0 <= x < 4 -> 0 <= y < 4 ->
      pixel_at output' (y * 4 + x) =
      if in_rectangle (Bounds 3 4 3 4) x y then colour_bytes white
      else pixel_at (replicate 64 0) (y * 4 + x).
Proof.
  apply (rectangle_clipped_to_canvas 4 4 sticking_out white (Bounds 3 4 3 4)
           (dyadic 1 (-1)) (dyadic 1 (-1)) (replicate 64 0));
    first [reflexivity | vm_compute; intuition congruence].
Defined.

(** ** What is handed to the encoder *)

Section Preserved.
Context {St : Type} (P : St -> Prop).

Lemma for_loop_preserved lo hi (body : Z -> St -> outcome St) s s' :
  P s -> (forall i t t', P t -> body i t = Ok t' -> P t') ->
  for_loop lo hi body s = Ok s' -> P s'.
Proof.
  intros Hs Hbody. destruct (Z.le_gt_cases lo hi).
  - apply (for_loop_invariant (fun _ => P)); eauto.
  - rewrite for_loop_done by lia. intros [= <-]. exact Hs.
Qed.

Lemma for_each_preserved {A} (l : list A) (body : A -> St -> outcome St)
  s s' :
  P s -> (forall x t t', x ∈ l -> P t -> body x t = Ok t' -> P t') ->
  for_each l body s = Ok s' -> P s'.
Proof.
  revert s. induction l as [|x l IH]; intros s Hs Hbody; cbn.
  - intros [= <-]. exact Hs.
  - destruct (body x s) as [t| |] eqn:Hx; cbn; try discriminate.
    apply IH.
    + apply (Hbody x s t); [left|exact Hs|exact Hx].
    + intros y u u' Hy. apply Hbody. right. exact Hy.
Qed.
End Preserved.

(** Copying a colour keeps the length of the buffer and its bytes. *)
Lemma copy_keeps c output offset output' (n : nat) :
  Forall is_byte (colour_bytes c) ->
  length output = n /\ Forall is_byte output ->
  copy c output offset = Ok output' ->
  length output' = n /\ Forall is_byte output'.
Proof.
  intros Hc [Hlen Hbytes] [_ ->]%copy_Ok. split.
  - rewrite length_inserts. exact Hlen.
  - apply Forall_inserts; assumption.
Qed.

Lemma read_rectangle_bytes width height element c b :
  read_rectangle width height element = Ok (c, b) ->
  Forall is_byte (colour_bytes c).
Proof.
  unfold read_rectangle. intros (t & _ & Hread)%bind_Ok.
  destruct (String.eqb t "rectangle"); [|discriminate].
  apply bind_Ok in Hread as (text & _ & (c' & Hc & (b' & _ & [= <- _])%bind_Ok)
    %bind_Ok).
  eauto using parseColour_bytes.
Qed.

Lemma paint_element_keeps width height element output output' (n : nat) :
  length output = n /\ Forall is_byte output ->
  paint_element width height element output = Ok output' ->
  length output' = n /\ Forall is_byte output'.
Proof.
  intros Hout (c & b & Hread & Hpaint)%paint_element_Ok.
  apply read_rectangle_bytes in Hread. revert Hpaint. unfold paint.
  apply (for_loop_preserved
           (fun out => length out = n /\ Forall is_byte out));
    [exact Hout|]. intros y t t' Ht.
  apply (for_loop_preserved
           (fun out => length out = n /\ Forall is_byte out));
    [exact Ht|]. intros x u u' Hu.
  apply copy_keeps; assumption.
Qed.

Lemma to_size_t_negative z : - 2 ^ 64 <= z < 0 -> to_size_t z = z + 2 ^ 64.
Proof.
  intros. unfold to_size_t. symmetry.
  apply (Z.mod_unique z (2 ^ 64) (-1)); lia.
Qed.

Lemma int_mul_Ok a b z : int_mul a b = Ok z -> z = a * b /\ in_int z = true.
Proof.
  unfold int_mul. destruct (in_int (a * b)) eqn:H; intros [= <-]. auto.
Qed.

Lemma in_int_range z : in_int z = true -> INT_MIN <= z <= INT_MAX.
Proof. unfold in_int. intros [? ?]%andb_prop. lia. Qed.

(** Lines 135-147 in reverse: a canvas that was set up has a byte count
    [width * height * 4] that is not negative and fits an [int], a buffer
    of that many bytes, and the background colour on every pixel. *)
Lemma new_canvas_Ok image resolution cv :
  new_canvas image resolution = Ok cv ->
  exists background bg,
    at_key image "background" ≫= get_string = Ok background /\
    parseColour background = Ok bg /\
    0 <= cv_width cv * cv_height cv /\
    cv_width cv * cv_height cv * 4 <= INT_MAX /\
    Z.of_nat (length (cv_output cv)) = cv_width cv * cv_height cv * 4 /\
    Forall is_byte (cv_output cv) /\
    forall i, 0 <= i < cv_width cv * cv_height cv ->
              pixel_at (cv_output cv) i = colour_bytes bg.
Proof.
  unfold new_canvas.
  intros (w & _ & (h & _ & (pixels & [-> Hp]%int_mul_Ok &
    (bytes & [-> Hb]%int_mul_Ok & (out0 & Halloc & (background & Hbg &
    (bg & Hparse & (output & Hfill & [= <-])%bind_Ok)%bind_Ok)%bind_Ok)
    %bind_Ok)%bind_Ok)%bind_Ok)%bind_Ok)%bind_Ok.
  cbn [cv_width cv_height cv_output].
  apply in_int_range in Hp, Hb. unfold INT_MIN, INT_MAX in *.
  unfold make_unique in Halloc.
  destruct (Z.leb_spec (to_size_t (w * h * 4)) INT_MAX) as [Hle|];
    [|discriminate]. injection Halloc as <-.
  assert (0 <= w * h * 4) as Hpos.
  { destruct (Z.lt_ge_cases (w * h * 4) 0) as [Hneg|]; [|lia].
    rewrite to_size_t_negative in Hle by lia. unfold INT_MAX in Hle. lia. }
  rewrite to_size_t_small in Hle, Hfill by lia.
  rewrite (to_size_t_small (w * h * 4)) in Hfill by lia.
  destruct (fill_background bg (w * h)
              (replicate (Z.to_nat (w * h * 4)) 0))
    as (output' & Hfill' & Hlen & Hpix);
    [lia|rewrite length_replicate; lia|lia|].
  rewrite Hfill in Hfill'. injection Hfill' as <-.
  exists background, bg.
  split; [exact Hbg|]. split; [exact Hparse|].
  split; [lia|]. split; [lia|].
  split; [rewrite Hlen, length_replicate; lia|].
  split; [|exact Hpix].
  revert Hfill.
  apply (for_loop_preserved (fun out => length out = Z.to_nat (w * h * 4)
                                        /\ Forall is_byte out)).
  - split; [apply length_replicate|].
    apply Forall_replicate. unfold is_byte. lia.
  - intros idx t t' Ht. apply copy_keeps; eauto using parseColour_bytes.
Qed.

Lemma render_Ok image resolution cv :
  render image resolution = Ok cv ->
  exists output0 elements,
    new_canvas image resolution
    = Ok (Canvas (cv_width cv) (cv_height cv) output0) /\
    at_key image "elements" = Ok elements /\
    for_each (items elements)
      (paint_element (cv_width cv) (cv_height cv)) output0
    = Ok (cv_output cv).
Proof.
  unfold render.
  intros ([w h output0] & Hcanvas & (elements & Helements &
    (output & Hpaint & [= <-])%bind_Ok)%bind_Ok)%bind_Ok.
  exists output0, elements. auto.
Qed.

Lemma rendered_bytes image resolution cv :
  render image resolution = Ok cv ->
  Z.of_nat (length (cv_output cv)) = cv_width cv * cv_height cv * 4 /\
  Forall is_byte (cv_output cv).
Proof.
  intros (output0 & elements & Hcanvas & _ & Hpaint)%render_Ok.
  apply new_canvas_Ok in Hcanvas
    as (_ & _ & _ & _ & H0 & Hmax & Hlen & Hbytes & _).
  cbn [cv_width cv_height cv_output] in *.
  assert (length (cv_output cv) = length output0 /\
          Forall is_byte (cv_output cv)) as [Hlen' Hbytes'].
  { revert Hpaint.
    apply (for_each_preserved
             (fun out => length out = length output0 /\ Forall is_byte out));
      [auto|].
    intros e t t' _. apply paint_element_keeps. }
  split; [lia|exact Hbytes'].
Qed.

(** X7 -- A rendered canvas has a buffer of exactly [width * height * 4] bytes,
    a count that is not negative and fits an [int]; each element of the
    buffer is a byte. *)
Theorem render_buffer image resolution cv :
  render image resolution = Ok cv ->
  Z.of_nat (length (cv_output cv)) = cv_width cv * cv_height cv * 4 /\
  0 <= cv_width cv * cv_height cv * 4 <= INT_MAX /\
  Forall is_byte (cv_output cv).
Proof.
  intros Hrender.
  destruct (rendered_bytes _ _ _ Hrender) as [Hlen Hbytes].
  apply render_Ok in Hrender as (output0 & elements & Hcanvas & _ & _).
  apply new_canvas_Ok in Hcanvas as (_ & _ & _ & _ & H0 & Hmax & _).
  cbn [cv_width cv_height cv_output] in *.
  split; [exact Hlen|]. split; [lia|exact Hbytes].
Qed.

Lemma render_buffer_witness :
  Z.of_nat (length (mjoin (replicate 16 [0; 0; 0; 255]))) = 4 * 4 * 4 /\
  0 <= 4 * 4 * 4 <= INT_MAX /\
  Forall is_byte (mjoin (replicate 16 [0; 0; 0; 255])).
Proof.
  apply (render_buffer
           (image "a" (JFloat (dyadic 1 0)) (JFloat (dyadic 1 0)) "#000000" [])
           (Build_Resolution 4 4)
           (Canvas 4 4 (mjoin (replicate 16 [0; 0; 0; 255])))).
  reflexivity.
Defined.

(** X8 -- A pixel of the canvas that no element covers shows the background
    colour. *)
Theorem render_background image resolution cv background bg elements i :
  render image resolution = Ok cv ->
  at_key image "background" ≫= get_string = Ok background ->
  parseColour background = Ok bg ->
  at_key image "elements" = Ok elements ->
  0 <= i < cv_width cv * cv_height cv ->
  (forall e c b, e ∈ items elements ->
     read_rectangle (cv_width cv) (cv_height cv) e = Ok (c, b) ->
     ~ covers b (cv_width cv) i) ->
  pixel_at (cv_output cv) i = colour_bytes bg.
Proof.
  intros (output0 & elements' & Hcanvas & Helements' & Hpaint)%render_Ok
    Hbg Hparse Helements Hi Hnone.
  rewrite Helements in Helements'. injection Helements' as <-.
  apply new_canvas_Ok in Hcanvas
    as (background' & bg' & Hbg' & Hparse' & _ & _ & _ & _ & Hpix).
  cbn [cv_width cv_height cv_output] in *.
  rewrite Hbg in Hbg'. injection Hbg' as <-.
  rewrite Hparse in Hparse'. injection Hparse' as <-.
  rewrite (for_each_paint_untouched _ _ _ _ _ i Hpaint); [|lia|exact Hnone].
  apply Hpix. exact Hi.
Qed.

Lemma centred_square_misses_corner : ~ covers (Bounds 1 3 1 3) 4 0.
Proof.
  intros (x & y & Hx & Hy & Hoff). cbn in Hx, Hy.
  rewrite (pixel_offset_in_canvas 4 4) in Hoff by first [lia|reflexivity].
  lia.
Defined.

Lemma render_background_witness :
  pixel_at centred_square_output 0 = colour_bytes black.
Proof.
  refine (render_background centred_square_image (Build_Resolution 4 4)
            (Canvas 4 4 centred_square_output) "#000000" black
            (JArray [centred_square]) 0 _ _ _ _ _ _).
  - vm_compute. reflexivity.
  - reflexivity.
  - reflexivity.
  - reflexivity.
  - cbn. lia.
  - intros e c b Hin Hread. apply list_elem_of_singleton in Hin as ->.
    vm_compute in Hread. injection Hread as <- <-.
    apply centred_square_misses_corner.
Defined.

(** ** Invariants of the trace *)

Lemma io_for_each_trace {A} (P : list event -> Prop) (l : list A)
  (body : A -> io unit) tr :
  P tr -> (forall x t, P t -> P (body x t).2) -> P (io_for_each l body tr).2.
Proof.
  intros Htr Hbody. revert tr Htr.
  induction l as [|x l IH]; intros tr Htr; cbn; [exact Htr|].
  specialize (Hbody x tr Htr).
  destruct (body x tr) as [[[]| |] tr']; cbn [snd] in *; auto.
Qed.

(** What a trace invariant has to survive: the event of
    [create_directories], and the write that follows a verified folder and
    a successful rendering. *)
Lemma process_trace (P : list event -> Prop) fs enc out image resolution tr :
  P tr ->
  (forall t p r, P t -> P (t ++ [Ecreate_directories p r])) ->
  (forall t folder name cv ret,
     P (t ++ [Ecreate_directories folder dir_ok]) ->
     render image resolution = Ok cv ->
     P ((t ++ [Ecreate_directories folder dir_ok]) ++
        [Estbi_write_tga (path_append folder name) (cv_width cv)
           (cv_height cv) 4 (cv_output cv) ret])) ->
  P (process fs enc out image resolution tr).2.
Proof.
  intros Htr Hcreate Hwrite. unfold process.
  destruct (fs tr _) eqn:Hfs; cbn [snd]; auto.
  destruct (at_key image "name" ≫= get_string) as [name| |];
    cbn [mbind outcome_bind snd]; auto.
  destruct (render image resolution) as [cv| |] eqn:Hrender;
    cbn [mbind outcome_bind snd]; auto.
Qed.

Lemma main_trace (P : list event -> Prop) fs enc argv fin_good parsed :
  P [] ->
  (forall t m, P t -> P (t ++ [Ecerr m])) ->
  (forall t p r, P t -> P (t ++ [Ecreate_directories p r])) ->
  (forall t folder name cv ret image resolution,
     P (t ++ [Ecreate_directories folder dir_ok]) ->
     render image resolution = Ok cv ->
     P ((t ++ [Ecreate_directories folder dir_ok]) ++
        [Estbi_write_tga (path_append folder name) (cv_width cv)
           (cv_height cv) 4 (cv_output cv) ret])) ->
  P (main fs enc argv fin_good parsed).2.
Proof.
  intros Hnil Hcerr Hcreate Hwrite.
  assert (P (try_block fs enc parsed []).2) as Hrun.
  { destruct parsed as [file| |]; [|exact Hnil..].
    rewrite try_block_scene.
    destruct (scene file) as [[[out ress] imgs]| |]; try exact Hnil.
    apply io_for_each_trace; [exact Hnil|].
    intros [image r] t Ht. unfold process_pair. cbn [fst snd].
    apply process_trace; eauto. }
  unfold main.
  destruct argv as [|argv0 [|argv1 [|argv2 argv]]]; cbn [snd];
    try exact Hnil; try exact (Hcerr [] _ Hnil).
  destruct fin_good; cbn [negb snd]; [|exact (Hcerr [] _ Hnil)].
  destruct (try_block fs enc parsed []) as [[[]|[]|] tr];
    cbn [snd] in *; auto.
Qed.

(** X9 -- Every call of the encoder is given four channels and a buffer of
    exactly [width * height * 4] bytes. *)
Theorem encoder_calls_well_formed fs enc argv fin_good parsed :
  Forall well_formed_write (main fs enc argv fin_good parsed).2.
Proof.
  apply main_trace.
  - constructor.
  - intros t m Ht. apply Forall_app. split; [exact Ht|]. repeat constructor.
  - intros t p r Ht. apply Forall_app. split; [exact Ht|]. repeat constructor.
  - intros t folder name cv ret image resolution Ht Hrender.
    apply Forall_app. split; [exact Ht|]. constructor; [|constructor].
    cbn. apply rendered_bytes in Hrender as (Hlen & Hbytes). auto.
Qed.

Lemma snoc_eq_middle {A} (l : list A) x l1 y l2 :
  l ++ [x] = l1 ++ y :: l2 ->
  (l2 = [] /\ l = l1 /\ x = y) \/
  exists l2', l2 = l2' ++ [x] /\ l = l1 ++ y :: l2'.
Proof.
  destruct l2 as [|z l2' _] using rev_ind.
  - intros [-> ->]%app_inj_tail. auto.
  - rewrite app_comm_cons, app_assoc. intros [-> ->]%app_inj_tail.
    right. eauto.
Qed.

Lemma verified_folder_other tr ev :
  written_into_verified_folder tr -> action_of ev = None \/
  (exists p r, ev = Ecreate_directories p r) ->
  written_into_verified_folder (tr ++ [ev]).
Proof.
  intros Htr Hev before p w h comp data ret after Heq.
  apply snoc_eq_middle in Heq as [(_ & _ & ->)|(after' & _ & ->)].
  - destruct Hev as [Hev|(? & ? & Hev)]; discriminate.
  - eapply Htr. reflexivity.
Qed.

(** X10 -- The encoder is called only right after [create_directories]
    on a folder that was then found to be a directory, and the path it is
    given is [folder / name] built from that folder. *)
Theorem files_written_into_verified_folders fs enc argv fin_good parsed :
  written_into_verified_folder (main fs enc argv fin_good parsed).2.
Proof.
  apply main_trace.
  - intros before p w h comp data ret after Heq.
    destruct before; discriminate.
  - intros t m Ht. apply verified_folder_other; auto.
  - intros t p r Ht. apply verified_folder_other; eauto.
  - intros t folder name cv ret image resolution Ht _
      before p w h comp data ret' after Heq.
    apply snoc_eq_middle in Heq as [(_ & <- & [= <- _ _ _ _ _])|
                                    (after' & _ & Heq)].
    + eauto.
    + eapply Ht. exact Heq.
Qed.

(** ** The command line and the header of the description *)


(** X12 -- Nothing is done to the file system unless there are two arguments, the
    file opens, the description parses and its header is read. *)
Theorem no_action_without_header fs enc argv fin_good parsed :
  actions (main fs enc argv fin_good parsed).2 <> [] ->
  exists argv0 argv1 file out resolutions images,
    argv = [argv0; argv1] /\ fin_good = true /\ parsed = Ok file /\
    scene file = Ok (out, resolutions, images).
Proof.
  unfold main.
  destruct argv as [|argv0 [|argv1 [|argv2 argv]]]; cbn [snd];
    try (intros H; contradiction H; reflexivity).
  destruct fin_good; cbn [negb snd];
    [|intros H; contradiction H; reflexivity].
  destruct parsed as [file|e|];
    [|destruct e; intros H; contradiction H; reflexivity
     |intros H; contradiction H; reflexivity].
  rewrite try_block_scene.
  destruct (scene file) as [[[out ress] imgs]|e|] eqn:Hscene.
  - intros _. exists argv0, argv1, file, out, ress, imgs. auto.
  - destruct e; intros H; contradiction H; reflexivity.
  - intros H; contradiction H; reflexivity.
Qed.

Lemma no_action_without_header_witness :
  exists argv0 argv1 file out resolutions images,
    ["sidle"; "scene.json"] = [argv0; argv1] /\ true = true /\
    Ok two_by_two = Ok file /\
    scene file = Ok (out, resolutions, images).
Proof.
  apply (no_action_without_header always_directory (encoder_returns 1)
           ["sidle"; "scene.json"] true (Ok two_by_two)).
  vm_compute. discriminate.
Defined.

(** X13 -- With no resolution or no image the run does nothing and exits with
    code 0, whatever the rest of the description holds. *)
Theorem nothing_to_render fs enc argv0 argv1 file out resolutions images :
  scene file = Ok (out, resolutions, images) ->
  resolutions = [] \/ images = [] ->
  main fs enc [argv0; argv1] true (Ok file) = (Exit 0, []).
Proof.
  intros Hscene Hempty. unfold main, try_block. cbn [negb].
  rewrite Hscene. destruct Hempty as [-> | ->]; [|reflexivity].
  assert (io_for_each images (process_image fs enc out []) []
          = (Ok tt, [])) as ->; [|reflexivity].
  clear Hscene. induction images as [|image images IH]; [reflexivity|].
  cbn [io_for_each process_image]. exact IH.
Qed.

Lemma nothing_to_render_witness :
  main never_directory (encoder_returns 0) ["sidle"; "scene.json"] true
    (Ok (description "out" [] [JString "not an image"]))
  = (Exit 0, []).
Proof.
  apply (nothing_to_render never_directory (encoder_returns 0)
           "sidle" "scene.json" _ (lexically_normal "out") []
           [JString "not an image"]).
  - reflexivity.
  - left. reflexivity.
Defined.

Lemma get_int_in_int j idx z :
  at_index j idx ≫= get_int = Ok z -> in_int z = true.
Proof.
  intros (v & _ & Hz)%bind_Ok. destruct v; cbn in Hz; try discriminate.
  - injection Hz as <-. destruct b; reflexivity.
  - injection Hz as <-. unfold to_int, in_int, INT_MIN, INT_MAX.
    pose proof (Z.mod_pos_bound (z0 + 2 ^ 31) (2 ^ 32) ltac:(lia)).
    apply andb_true_intro. split; lia.
  - unfold double_to_int in Hz. destruct (trunc d) as [t|]; [|discriminate].
    destruct (in_int t) eqn:Ht; [injection Hz as <-|discriminate]. exact Ht.
Qed.

Lemma read_resolutions js acc resolutions :
  for_each js read_resolution acc = Ok resolutions ->
  exists new, resolutions = acc ++ new /\ Forall2 read_as js new.
Proof.
  revert acc. induction js as [|j js IH]; intros acc; cbn [for_each].
  - intros [= <-]. exists []. rewrite app_nil_r. split; constructor.
  - intros (acc' & Hj & Hrest)%bind_Ok.
    unfold read_resolution in Hj.
    apply bind_Ok in Hj as (w & Hw & (h & Hh & [= <-])%bind_Ok).
    apply IH in Hrest as (new & -> & Hnew).
    exists (Build_Resolution w h :: new). rewrite <- app_assoc.
    split; [reflexivity|]. constructor; [|exact Hnew].
    unfold read_as. cbn [res_width res_height].
    split; [exact Hw|]. split; [exact Hh|].
    split; eauto using get_int_in_int.
Qed.

(** X14 -- The header is read in the order output path, resolutions, images; the
    resolutions are the entries of ["resolutions"], one for one and in
    order, each read as two [int]s. *)
Theorem scene_header file out resolutions images :
  scene file = Ok (out, resolutions, images) ->
  exists outputPath rs imgs,
    at_key file "outputPath" ≫= get_string = Ok outputPath /\
    out = lexically_normal outputPath /\
    at_key file "resolutions" = Ok rs /\
    Forall2 read_as (items rs) resolutions /\
    at_key file "images" = Ok imgs /\ images = items imgs.
Proof.
  unfold scene.
  intros (outputPath & Hout & (rs & Hrs & (ress & Hress & (imgs & Himgs &
    [= <- <- <-])%bind_Ok)%bind_Ok)%bind_Ok)%bind_Ok.
  apply read_resolutions in Hress as (new & -> & Hnew).
  exists outputPath, rs, imgs. auto 10.
Qed.

Lemma scene_header_witness :
  exists outputPath rs imgs,
    at_key two_by_two "outputPath" ≫= get_string = Ok outputPath /\
    lexically_normal "out" = lexically_normal outputPath /\
    at_key two_by_two "resolutions" = Ok rs /\
    Forall2 read_as (items rs) [Build_Resolution 1 1; Build_Resolution 2 2] /\
    at_key two_by_two "images" = Ok imgs /\
    [plain "a"; plain "b"] = items imgs.
Proof.
  apply (scene_header two_by_two (lexically_normal "out")
           [Build_Resolution 1 1; Build_Resolution 2 2]
           [plain "a"; plain "b"]).
  reflexivity.
Defined.

(** ** Runs that succeed *)

Lemma for_each_total {A St} (P : St -> Prop) (l : list A)
  (body : A -> St -> outcome St) s :
  P s ->
  (forall x t, x ∈ l -> P t -> exists t', body x t = Ok t' /\ P t') ->
  exists s', for_each l body s = Ok s' /\ P s'.
Proof.
  revert s. induction l as [|x l IH]; intros s Hs Hbody; cbn.
  - eauto.
  - destruct (Hbody x s) as (t & -> & Ht); [left|exact Hs|]. cbn.
    apply IH; [exact Ht|]. intros y u Hy. apply Hbody. right. exact Hy.
Qed.

Lemma scaled_in_int j key n z : scaled j key n = Ok z -> in_int z = true.
Proof.
  unfold scaled, double_to_int. intros (v & _ & Hz)%bind_Ok.
  destruct (trunc _) as [t|]; [|discriminate].
  destruct (in_int t) eqn:Ht; [injection Hz as <-|discriminate]. exact Ht.
Qed.

Lemma new_canvas_dims image resolution cv :
  new_canvas image resolution = Ok cv ->
  in_int (cv_width cv) = true /\ in_int (cv_height cv) = true.
Proof.
  unfold new_canvas.
  intros (w & Hw & (h & Hh & (pixels & _ & (bytes & _ & (out0 & _ &
    (background & _ & (bg & _ & (output & _ & [= <-])%bind_Ok)%bind_Ok)
    %bind_Ok)%bind_Ok)%bind_Ok)%bind_Ok)%bind_Ok)%bind_Ok.
  eauto using scaled_in_int.
Qed.

(** X15 -- Once the canvas is set up with dimensions that are not negative,
    rendering cannot fail on elements that are rectangles whose members
    are read and whose width and height are not negative: nothing is
    written outside the buffer. *)
Theorem render_succeeds image resolution cv0 elements :
  new_canvas image resolution = Ok cv0 ->
  0 <= cv_width cv0 -> 0 <= cv_height cv0 ->
  at_key image "elements" = Ok elements ->
  (forall e, e ∈ items elements ->
     exists c b lw lh,
       read_rectangle (cv_width cv0) (cv_height cv0) e = Ok (c, b) /\
       at_key e "width" ≫= get_double = Ok lw /\ not_negative lw = true /\
       at_key e "height" ≫= get_double = Ok lh /\ not_negative lh = true) ->
  exists output,
    render image resolution
    = Ok (Canvas (cv_width cv0) (cv_height cv0) output).
Proof.
  intros Hcanvas Hw Hh Helements Hall. unfold render.
  rewrite Hcanvas, Helements. cbn [mbind outcome_bind].
  destruct (new_canvas_dims _ _ _ Hcanvas) as [Hwi%in_int_range Hhi%in_int_range].
  apply new_canvas_Ok in Hcanvas as (_ & _ & _ & _ & _ & _ & Hlen & _ & _).
  destruct (for_each_total
              (fun out => Z.of_nat (length out)
                          = cv_width cv0 * cv_height cv0 * 4)
              (items elements)
              (paint_element (cv_width cv0) (cv_height cv0))
              (cv_output cv0)) as (output & -> & _); [exact Hlen| |eauto].
  intros e t He Ht.
  destruct (Hall e He) as (c & b & lw & lh & Hread & Hlw & Hnw & Hlh & Hnh).
  assert (0 <= cv_width cv0 <= INT_MAX) as Hwr by lia.
  assert (0 <= cv_height cv0 <= INT_MAX) as Hhr by lia.
  destruct (rectangle_ends_in_canvas _ _ _ _ _ _ _
              Hwr Hhr Hread Hlw Hnw Hlh Hnh) as [HeX HeY].
  destruct (rectangle_clamped (cv_width cv0) (cv_height cv0) e c b t)
    as (t' & Hpaint & Hlen' & _); auto;
    [unfold INT_MAX in *; nia|].
  exists t'. split; [exact Hpaint|]. lia.
Qed.

Lemma render_succeeds_witness :
  exists output,
    render (image "b" (JFloat (dyadic 1 0)) (JFloat (dyadic 1 0)) "#000000"
              [centred_square; sticking_out])
      (Build_Resolution 4 4)
    = Ok (Canvas 4 4 output).
Proof.
  refine (render_succeeds
            (image "b" (JFloat (dyadic 1 0)) (JFloat (dyadic 1 0)) "#000000"
               [centred_square; sticking_out])
            (Build_Resolution 4 4)
            (Canvas 4 4 (mjoin (replicate 16 [0; 0; 0; 255])))
            (JArray [centred_square; sticking_out]) _ _ _ _ _).
  - vm_compute. reflexivity.
  - cbn. lia.
  - cbn. lia.
  - reflexivity.
  - intros e [->|[->|[]%elem_of_nil]%elem_of_cons]%elem_of_cons.
    + exists white, (Bounds 1 3 1 3), (dyadic 1 (-1)), (dyadic 1 (-1)).
      repeat split; vm_compute; reflexivity.
    + exists white, (Bounds 3 4 3 4), (dyadic 1 (-1)), (dyadic 1 (-1)).
      repeat split; vm_compute; reflexivity.
Defined.

Lemma elem_of_pairs images resolutions p :
  p ∈ pairs images resolutions -> p.1 ∈ images /\ p.2 ∈ resolutions.
Proof.
  unfold pairs.
  intros (image & (resolution & ->%list_elem_of_singleton & Hr)
            %list_elem_of_bind & Hi)%list_elem_of_bind.
  auto.
Qed.

(** X16 -- When every directory can be ensured and every image has a name and
    renders at every resolution, the run hands one file per (image,
    resolution) pair to the encoder, images outer and resolutions inner,
    and exits with code 0. *)
Theorem run_succeeds fs enc argv0 argv1 file out resolutions images :
  scene file = Ok (out, resolutions, images) ->
  (forall tr p, fs tr p = dir_ok) ->
  (forall image resolution, image ∈ images -> resolution ∈ resolutions ->
     (exists name, at_key image "name" ≫= get_string = Ok name) /\
     (exists cv, render image resolution = Ok cv)) ->
  exists tr,
    main fs enc [argv0; argv1] true (Ok file) = (Exit 0, tr) /\
    actions tr = image_outer_actions out resolutions images.
Proof.
  intros Hscene Hfs Hall.
  assert (forall ps tr0,
            (forall p, p ∈ ps -> p.1 ∈ images /\ p.2 ∈ resolutions) ->
            (io_for_each ps (process_pair fs enc out) tr0).1 = Ok tt) as Hrun.
  { induction ps as [|[image r] ps IH]; intros tr0 Hps; [reflexivity|].
    cbn [io_for_each]. unfold process_pair at 1, process. cbn [fst snd].
    rewrite Hfs.
    destruct (Hps (image, r)) as [Hi Hr]; [left|]. cbn [fst snd] in *.
    destruct (Hall image r Hi Hr) as [[name ->] [cv ->]].
    cbn [mbind outcome_bind]. apply IH.
    intros p Hp. apply Hps. right. exact Hp. }
  specialize (Hrun (pairs images resolutions) [] (elem_of_pairs _ _)).
  pose proof (pairs_actions fs enc out (pairs images resolutions) []) as Hact.
  unfold main. cbn [negb]. rewrite try_block_scene, Hscene.
  destruct (io_for_each _ _ _) as [o tr]. cbn [fst] in Hrun. subst o.
  exists tr. split; [reflexivity|].
  destruct Hact as [[_ ->]|[H _]]; [|congruence].
  apply pairs_image_outer.
Qed.

Lemma run_succeeds_witness :
  exists tr,
    main always_directory (encoder_returns 0) ["sidle"; "scene.json"] true
      (Ok two_by_two) = (Exit 0, tr) /\
    actions tr =
    image_outer_actions (lexically_normal "out")
      [Build_Resolution 1 1; Build_Resolution 2 2] [plain "a"; plain "b"].
Proof.
  apply (run_succeeds always_directory (encoder_returns 0)
           "sidle" "scene.json" two_by_two);
    [vm_compute; reflexivity|reflexivity|].
  intros image resolution
    [->|[->|[]%elem_of_nil]%elem_of_cons]%elem_of_cons
    [->|[->|[]%elem_of_nil]%elem_of_cons]%elem_of_cons;
    split; eexists; vm_compute; reflexivity.
Defined.

(** ** Messages *)

Lemma try_block_silent fs enc parsed : silent (try_block fs enc parsed []).2.
Proof.
  destruct parsed as [file| |]; [|constructor..].
  rewrite try_block_scene.
  destruct (scene file) as [[[out ress] imgs]| |]; try constructor.
  apply io_for_each_trace; [constructor|].
  intros [image r] t Ht. unfold process_pair. cbn [fst snd].
  apply process_trace.
  - exact Ht.
  - intros t' p r' Ht'. apply Forall_app. split; [exact Ht'|].
    repeat constructor.
  - intros t' folder name cv ret Ht' _. apply Forall_app.
    split; [exact Ht'|]. repeat constructor.
Qed.

(** X17 -- A run writes at most one message to [cerr], and nothing happens after
    it; a run that ends with exit code 1 has written one. *)
Theorem one_message_at_the_end fs enc argv fin_good parsed :
  let run := main fs enc argv fin_good parsed in
  (exists before m, run.2 = before ++ [Ecerr m] /\ silent before) \/
  (silent run.2 /\ run.1 <> Exit 1).
Proof.
  cbn zeta. unfold main.
  assert (silent []) as Hnil by constructor.
  destruct argv as [|argv0 [|argv1 [|argv2 argv]]]; cbn [fst snd].
  - right. split; [exact Hnil|discriminate].
  - left. exists [], (usage argv0). auto.
  - destruct fin_good; cbn [negb fst snd].
    2:{ left. exists [], (could_not_open argv1). auto. }
    pose proof (try_block_silent fs enc parsed) as Hsilent.
    destruct (try_block fs enc parsed []) as [[[]|[]|] tr];
      cbn [fst snd] in *;
      first [ left; eexists _, _; split; [reflexivity|exact Hsilent]
            | right; split; [exact Hsilent|discriminate] ].
  - left. exists [], (usage argv0). auto.
Qed.

(** ** Folder names *)

Lemma string_mem_app c (a b : string) :
  string_mem c (a ++ b)%string = string_mem c a || string_mem c b.
Proof.
  induction a as [|c' a IH]; [reflexivity|].
  cbn [String.append string_mem]. rewrite IH, orb_assoc. reflexivity.
Qed.

Lemma string_of_uint_digits c d :
  string_mem c (NilEmpty.string_of_uint d) = true -> is_digit c.
Proof.
  unfold is_digit.
  induction d; cbn [NilEmpty.string_of_uint string_mem];
    [discriminate|..];
    (intros [Heq|H]%orb_true_iff; [|auto]);
    apply Ascii.eqb_eq in Heq as ->; split; apply Nat.leb_le; reflexivity.
Qed.

(** [to_string] writes digits and the minus sign only. *)
Lemma to_string_lacks c z :
  c <> "-"%char -> ~ is_digit c -> string_mem c (to_string z) = false.
Proof.
  intros Hminus Hdigit.
  assert (Ascii.eqb c "-" = false) as Hm by (apply Ascii.eqb_neq, Hminus).
  assert (forall d, string_mem c (NilZero.string_of_uint d) = false) as Hu.
  { intros d. destruct (string_mem c _) eqn:H; [|reflexivity].
    contradiction Hdigit. unfold NilZero.string_of_uint in H.
    destruct d; try exact (string_of_uint_digits _ _ H).
    cbn in H. apply orb_true_iff in H as [->%Ascii.eqb_eq|H];
      [split; apply Nat.leb_le; reflexivity|discriminate]. }
  unfold to_string, NilZero.string_of_int.
  destruct (Z.to_int z); cbn [string_mem]; rewrite ?Hm, Hu; reflexivity.
Qed.

Lemma to_string_no_x z : string_mem "x" (to_string z) = false.
Proof.
  apply to_string_lacks; [discriminate|].
  intros [_ H%Nat.leb_le]. discriminate H.
Qed.

Lemma folder_name_lacks c r :
  string_mem c "resx-" = false -> ~ is_digit c ->
  string_mem c (folder_name r) = false.
Proof.
  intros Hc Hdigit. cbn [string_mem] in Hc.
  repeat (apply orb_false_iff in Hc as [? Hc]).
  assert (c <> "-"%char) as Hminus by (apply Ascii.eqb_neq; assumption).
  unfold folder_name.
  rewrite !string_mem_app, !to_string_lacks by assumption.
  cbn [string_mem].
  repeat match goal with H : Ascii.eqb c _ = false |- _ => rewrite H; clear H end.
  reflexivity.
Qed.

Lemma split_at_x (a a' b b' : string) :
  string_mem "x" a = false -> string_mem "x" a' = false ->
  (a ++ String "x" b = a' ++ String "x" b')%string -> a = a' /\ b = b'.
Proof.
  revert a'. induction a as [|c a IH]; intros [|c' a']; cbn;
    intros Ha Ha' Heq.
  - injection Heq as ->. auto.
  - injection Heq as <- _. discriminate.
  - injection Heq as -> _. discriminate.
  - injection Heq as -> Heq.
    apply orb_false_iff in Ha as [_ Ha], Ha' as [_ Ha'].
    destruct (IH a' Ha Ha' Heq) as [-> ->]. auto.
Qed.

Lemma to_string_inj z z' : to_string z = to_string z' -> z = z'.
Proof.
  unfold to_string. intros Heq. apply DecimalZ.to_int_inj.
  assert (forall n, Z.to_int n <> Decimal.Pos Decimal.Nil /\
                    Z.to_int n <> Decimal.Neg Decimal.Nil) as Hnil.
  { intros [|p|p]; cbn; split; try discriminate; intros [= H];
      exact (DecimalPos.Unsigned.to_uint_nonnil p H). }
  apply (f_equal NilZero.int_of_string) in Heq.
  rewrite !NilZero.isi in Heq by apply Hnil.
  congruence.
Qed.

(** X18 -- The folder of a resolution is [outputFolder / name] for the
    name "res" + width + "x" + height. Two resolutions that differ in
    width or in height get different names, and a name is one path
    component: not empty, not [.] or [..], without separator or colon. *)
Theorem resolution_folders_differ outputFolder r r' :
  r <> r' ->
  resolution_folder outputFolder r
  = path_append outputFolder (folder_name r) /\
  folder_name r <> folder_name r' /\
  single_component (folder_name r).
Proof.
  intros Hne. split; [reflexivity|]. split.
  - intros Heq. apply Hne. unfold folder_name in Heq.
    cbn [String.append] in Heq. injection Heq as Heq.
    apply split_at_x in Heq as [Hw Hh]; try apply to_string_no_x.
    apply to_string_inj in Hw, Hh.
    destruct r, r'; cbn in *; congruence.
  - unfold single_component.
    split; [discriminate|]. split; [discriminate|]. split; [discriminate|].
    repeat split; apply folder_name_lacks;
      first [ reflexivity
            | intros [H%Nat.leb_le H'%Nat.leb_le]; discriminate ].
Qed.

Lemma resolution_folders_differ_witness :
  resolution_folder (lexically_normal "out") (Build_Resolution 1 11)
  = path_append (lexically_normal "out") "res1x11" /\
  folder_name (Build_Resolution 1 11) <> folder_name (Build_Resolution 11 1) /\
  single_component (folder_name (Build_Resolution 1 11)).
Proof.
  apply (resolution_folders_differ (lexically_normal "out")
           (Build_Resolution 1 11) (Build_Resolution 11 1)).
  discriminate.
Defined.

(** ** Encoder failures *)

Lemma all_pairs_processed fs enc out (images : list json)
  (resolutions : list Resolution) ps tr0 :
  (forall tr p, fs tr p = dir_ok) ->
  (forall image resolution, image ∈ images -> resolution ∈ resolutions ->
     (exists name, at_key image "name" ≫= get_string = Ok name) /\
     (exists cv, render image resolution = Ok cv)) ->
  (forall p, p ∈ ps -> p.1 ∈ images /\ p.2 ∈ resolutions) ->
  (io_for_each ps (process_pair fs enc out) tr0).1 = Ok tt.
Proof.
  intros Hfs Hall. revert tr0.
  induction ps as [|[image r] ps IH]; intros tr0 Hps; [reflexivity|].
  cbn [io_for_each]. unfold process_pair at 1, process. cbn [fst snd].
  rewrite Hfs.
  destruct (Hps (image, r)) as [Hi Hr]; [left|]. cbn [fst snd] in *.
  destruct (Hall image r Hi Hr) as [[name ->] [cv ->]].
  cbn [mbind outcome_bind]. apply IH.
  intros p Hp. apply Hps. right. exact Hp.
Qed.

(** C10 -- A failure of the encoder goes unnoticed. Whatever the encoder
    returns at each call (0, a failure, included), a run in which every
    folder is a directory and every image has a name and renders goes
    through every (image, resolution) pair, the pairs after a failed call
    included, writes no message, and exits with code 0; up to the values
    returned its events are those of the run with any other encoder. *)
Theorem encoder_result_ignored fs enc enc' argv0 argv1 file
  out resolutions images :
  scene file = Ok (out, resolutions, images) ->
  (forall tr p, fs tr p = dir_ok) ->
  (forall image resolution, image ∈ images -> resolution ∈ resolutions ->
     (exists name, at_key image "name" ≫= get_string = Ok name) /\
     (exists cv, render image resolution = Ok cv)) ->
  exists tr,
    main fs enc [argv0; argv1] true (Ok file) = (Exit 0, tr) /\
    silent tr /\
    actions tr = image_outer_actions out resolutions images /\
    forget tr = forget (main fs enc' [argv0; argv1] true (Ok file)).2.
Proof.
  intros Hscene Hfs Hall.
  assert (exists tr, try_block fs enc (Ok file) [] = (Ok tt, tr) /\
                     actions tr = image_outer_actions out resolutions images)
    as (tr & Htry & Hact).
  { rewrite try_block_scene, Hscene.
    pose proof (all_pairs_processed fs enc out images resolutions
                  (pairs images resolutions) [] Hfs Hall
                  (elem_of_pairs _ _)) as Hrun.
    pose proof (pairs_actions fs enc out (pairs images resolutions) [])
      as Hact.
    destruct (io_for_each _ _ _) as [o tr]. cbn [fst] in Hrun. subst o.
    exists tr. split; [reflexivity|].
    destruct Hact as [[_ ->]|[H _]]; [|congruence].
    apply pairs_image_outer. }
  assert (main fs enc [argv0; argv1] true (Ok file) = (Exit 0, tr)) as Hmain.
  { unfold main. cbn [negb]. rewrite Htry. reflexivity. }
  exists tr. split; [exact Hmain|]. split.
  { pose proof (try_block_silent fs enc (Ok file)) as Hsilent.
    rewrite Htry in Hsilent. exact Hsilent. }
  split; [exact Hact|].
  destruct (encoder_return_unused fs enc enc' [argv0; argv1] true (Ok file))
    as [_ Hforget].
  { intros t t' p _. rewrite !Hfs. reflexivity. }
  rewrite Hmain in Hforget. exact Hforget.
Qed.

Lemma encoder_result_ignored_witness :
  exists tr,
    main always_directory (encoder_returns 0) ["sidle"; "scene.json"] true
      (Ok two_by_two) = (Exit 0, tr) /\
    silent tr /\
    actions tr =
    image_outer_actions (lexically_normal "out")
      [Build_Resolution 1 1; Build_Resolution 2 2] [plain "a"; plain "b"] /\
    forget tr =
    forget (main always_directory (encoder_returns 1)
              ["sidle"; "scene.json"] true (Ok two_by_two)).2.
Proof.
  apply (encoder_result_ignored always_directory (encoder_returns 0)
           (encoder_returns 1) "sidle" "scene.json" two_by_two);
    [vm_compute; reflexivity|reflexivity|].
  intros image resolution
    [->|[->|[]%elem_of_nil]%elem_of_cons]%elem_of_cons
    [->|[->|[]%elem_of_nil]%elem_of_cons]%elem_of_cons;
    split; eexists; vm_compute; reflexivity.
Defined.
